(* ===== verification/_CoqProject ===== *)
-Q . S2P
Prelude.v
Ordering.v
Collation.v
Comparator.v
StdMap.v
MapSpec.v
CaseMap.v
CrtDbg.v
Program.v
Checks.v
Steps.v
Locale.v
