(* ===== verification/Prelude.v ===== *)
(** * Verification of the case-insensitive string-keyed [std::map] demo

    The program ([src/MapWithCaseInsensitiveKey/MapWithCaseInsensitiveKey/
    CaseInsensitiveStringKeyMap.cpp]) is one translation unit with five parts:

    - the macro [ASSERT] (line 21), which is [_ASSERTE] of [crtdbg.h]: in a
      debug build a false expression is reported to the debug runtime, which
      ends the run or lets it continue;
    - [CompareStringIgnoreCase] (lines 29-45): a wrapper that passes the two
      strings' [c_str()] buffers, with length [-1], to the Windows API
      [CompareStringEx] under the invariant locale and [NORM_IGNORECASE], and
      returns the API's [int] unchanged;
    - [StringIgnoreCaseLess] (lines 48-55): the comparison object whose
      [operator()] is [CompareStringIgnoreCase(s1, s2) == CSTR_LESS_THAN];
    - [CaseInsensitiveStringMap<Value>] (lines 58-59): the alias
      [std::map<std::wstring, Value, StringIgnoreCaseLess>];
    - [main] (lines 65-98): prints a banner, builds a three-entry dictionary
      from an initializer list, runs thirteen [ASSERT(dictionary[k] == v)]
      checks with case variants of the keys, and prints "All right.".

    The parts interact through three library boundaries.  The comparator
    calls the platform's collation; the container calls the comparator, which
    it receives as a parameter of its type; the assertions call the debug
    runtime.  Each boundary is an interface of the development, so that what
    is proved of one side assumes of the other only what the interface
    states.

    ** Files, in dependency order

    - [Prelude] (this file): tactics ([bool_split], [case_goal]), the hint
      databases [cimap] and [cimap_rw], list helpers shared by the components
      ([insert_at], the three-way comparison [Zs_compare] of lists of code
      units), and the state-and-abort monad [prog] in which [main] is
      written: a computation returns a value and a state ([Returned]) or
      stops with an error and the state reached ([Aborted]).  [simulates]
      relates two programs over two states, one doing on the image of a
      state what the other does on the state.
    - [Ordering]: the interface between comparator and container.  [Compare]
      is the C++ comparison-object concept (an [operator()] returning [bool]);
      [StrictWeakOrder] is the named requirement the container relies on.  The
      key equivalence [a ≍ b] (neither is less than the other) is the relation
      under which [std::map] keys are unique; it is coarser than equality and
      comes with [Equivalence] and [Proper] instances.
    - [Collation]: the interface between comparator and platform.  Wide
      characters are 16-bit code units in [Z]; [wstring], [c_str] and the
      Windows constants are as [Windows.h] has them.  [TextCollator] is the
      platform's collation, [CollatorLaws] what a sound one promises for a
      locale and a flag word, [CompareStringEx] the calling convention around
      it (counted or NUL-terminated buffers, reserved arguments, failure as
      [0]), [extent] and [readable] what the call reads of a buffer, and
      [CompareStringEx_checked] the call with the precondition that it stays
      inside its buffers.  Three collations of the development's own run the
      definitions in witnesses and examples: [latin1_collator] upper-cases
      Basic Latin and Latin-1 letters and compares code units,
      [ordinal_collator] does not fold case, [failing_collator] fails.
    - [Comparator]: [CompareStringIgnoreCase] and [StringIgnoreCaseLess],
      translated from the source.  The call of the wrapper is written once,
      over the entry point it is passed to ([CompareStringIgnoreCase_body]):
      on [CompareStringEx] it is the wrapper, on [CompareStringEx_checked]
      it is the same call under the API's precondition.
    - [StdMap]: [std::map<Key, T, Compare>] as a record, indexed by the
      comparison object, that holds the in-order sequence of entries; an
      iterator is an index.  [lower_bound], [find], [insert], [subscript]
      ([operator[]]), [erase], [size], [of_initializer_list], the iterators
      [begin], [end_], [deref] and the loop [for_each]; the invariant
      [sorted].  [rekey] reads the sequence of one map, with its keys
      mapped, as a map under another comparison object.
    - [MapSpec]: the abstract map (a function from keys to stored entries
      that respects key equivalence), the simulation relation [refines], and
      the call-by-call machines [exec] (container) and [step] (abstract map).
    - [CaseMap]: the alias [CaseInsensitiveStringMap] and the container's
      promises specialised to the case-insensitive comparator.
    - [CrtDbg]: [ASSERT] and [_ASSERTE], over any state that records the
      reports raised ([ReportLog]).  [CrtReport] is the interface to the
      debug runtime: what the report of a line answers ([None] when it
      aborts the process, [Some 1] for a break, any other value to
      continue), and [_ASSERTE] acts on the answer as the macro does.
      [stops], [breaks] and [ignores] are three debug runtimes.
    - [Program]: the literals, [dictionary_init] and [main], in the [prog]
      monad over the state [MainState] (the dictionary, what was written to
      [wcout], and the lines of the reports raised); [assertions] lists the
      thirteen checks with their source lines.
    - [Checks]: [checks] reads the effect of the assertions off the
      dictionary; what holds of [main] for every collation, or for every
      sound one, is proved from it.
    - [Steps]: the statements of [main] as the list [body], in source
      order, each executed by the definition of [Program] that [main] uses
      for it ([exec_stmt]); and, to state what holds between two statements,
      the step relation [main_step] over configurations ([Running] with the
      statements that remain, [Failed] at a line, [Exited] with a status).
    - [Locale]: [agree] relates two collations that answer alike under the
      invariant locale with [NORM_IGNORECASE]; [retype] reads a state of the
      run under one as a state of the run under the other.

    ** What is translated and what is not

    Translated from the lines of the source: the wrapper and its call, the
    comparison object, the alias, [main] with its literals, its dictionary
    and its assertions, the macro [ASSERT], and the list [body] of the
    statements of [main].  Written from the documentation of the libraries
    the source calls, whose code is not in the repository: [CompareStringEx]
    and its constants, [std::map], [std::wstring], [_ASSERTE], [wcout].
    The rest is the development's own and translates no line: the state
    [MainState] of a run, in which [reports] records what the debug runtime
    was told; the step relation of [Steps] with its configurations, its
    function [main_next] and its iteration [main_run]; the readings
    [checks], [failing], [subscripted] of [Checks]; [rekey], [simulates],
    [agree] and [retype]; the three collations and the three debug runtimes
    above.

    ** What the theorems show

    - Comparator ([Comparator]): whatever the collation, a call of the
      wrapper is one collation, under the invariant locale and with
      [NORM_IGNORECASE] alone, of the keys up to their first NUL
      ([CompareStringIgnoreCase_one_collation]), so that what follows a NUL
      in a key is never compared; a failed call (result [0]) is read as
      "not less", so that keys whose comparison fails are equivalent; and
      the call of the wrapper meets the precondition of the API on its
      buffers ([CompareStringIgnoreCase_reads_in_bounds]): the body of the
      wrapper run on [CompareStringEx_checked] returns the wrapper's result,
      which it would not without the terminator of [c_str()].  Under any
      collation that satisfies [CollatorLaws], [StringIgnoreCaseLess] is a
      strict weak order, its two answers determine the three-way result,
      and it cannot tell apart keys that are equal ignoring case.
    - Container ([StdMap], [MapSpec]): every operation preserves [sorted];
      [find] is characterised by membership up to key equivalence; each
      operation is simulated by its abstract counterpart, hence so is every
      sequence of calls; a sorted sequence is determined by what [find]
      answers, and by the entries it holds; construction from an
      initializer list without equivalent keys sorts it.  These are proved
      against [StrictWeakOrder] alone.  Without any law: the operations
      consult the keys through the comparison object only, so that a
      function on keys that turns the answers of one comparison object into
      those of another turns each operation into the same operation
      ([insert_rekey], [subscript_rekey], [of_initializer_list_rekey]).
    - Alias ([CaseMap]): the properties of the specification for the
      case-insensitive map, under a sound collation: keys equal ignoring
      case find the same entry; uniqueness and ordering of keys however the
      map was built; [operator[]] and [insert] are decided by the lookup of
      any case variant of the key, the first returning the stored value and
      the second not overwriting it; idempotence of [operator[]]; first
      spelling and first entry win; [erase] ignores case; refinement of the
      abstract map; the order of an initializer list leaves no trace
      ([initializer_list_sorts]).
    - Assertions ([CrtDbg]): the macro case by case ([ASSERT_debug]), and
      the rule that carries an invariant of the state across an assertion
      ([ASSERT_preserves]).
    - Program ([Program], [Checks]): for every collation and every debug
      runtime the assertions of [main] do what [checks] reads off the
      dictionary.  When no report lets the run continue, the run stops at
      the first assertion whose key is not found with the expected value
      ([main_debug_decided]).  Under a sound collation, whatever the runtime
      answers, the reports are the assertions that do not hold on the
      dictionary as constructed, up to the first report that ends the run
      ([main_debug_reports]), and the run returns without a report exactly
      when the collation folds the keys of the assertions
      ([main_debug_passes_iff]).  When every call of the wrapper fails, the
      dictionary is constructed with one entry and the failure shows only
      at the assertion of line 86, in a debug build
      ([main_debug_collation_unavailable]).  [main_outcome_safe] and
      [main_leaves_valid_map] bound every outcome; a release build evaluates
      no assertion.  The examples that close [Program] compute four runs on
      the development's own collations; they test the definitions.
    - Executions ([Steps]): [main] is the execution of [body] statement by
      statement ([main_body], by computation), and the executions of the
      step relation end in the outcome [Program.main] computes and nowhere
      else ([main_step_adequate]).  By induction on the executions, at every
      point of every run the dictionary is sorted, the output is what the
      executed statements write, and the reports raised so far let the run
      continue; under a sound collation an execution reaches, from wherever
      it stands, the exit after "All right." exactly when every assertion
      that does not hold is reported by a report that lets the run
      continue.
    - Locale ([Locale]): the comparison object and [main] see the
      platform's collation up to [agree]: on two platforms that agree under
      the invariant locale with [NORM_IGNORECASE], [main] ends the same way
      with the same output, reports and entries
      ([main_locale_independent]), each statement of one run simulating the
      statement of the other.
    - Iteration and round trip ([StdMap], [CaseMap]): the loop from
      [begin()] to [end()] ends with fuel for [size()] iterations and visits
      the entries in order; a map constructed from the iteration of a sorted
      map is that map.

    Each theorem with a hypothesis has a witness that applies it at a
    concrete input, most of them under [latin1_collator].

    ** Assumptions, bounds and fuel

    Theorems "under a sound collation" assume [CollatorLaws] for the
    invariant locale and [NORM_IGNORECASE] and nothing else of the platform;
    the others hold for every collation, or say under which condition on
    the results of the wrapper they hold.  The lemmas of [Checks] on the
    reports of a run need only that [StringIgnoreCaseLess] is a strict weak
    order, which it is under a sound collation and also when every call
    fails.  [std::map] requires of its
    comparison object that it is a strict weak order and leaves the
    behaviour undefined otherwise.  The search of [StdMap] is a scan of the
    sequence, defined for every comparison object: where a theorem holds
    for every collation, it says of a collation under which
    [StringIgnoreCaseLess] is no strict weak order what the scan does, which
    no library is bound to do.  Of entries with equivalent keys in an
    initializer list [of_initializer_list] keeps the first, as the
    specification (4.2) asks.

    One definition of the container runs on fuel: [StdMap.for_each] needs
    [size()] iterations ([for_each_drop]) and is cut short with less
    ([for_each_None]).  [main] has no loop.  Every other function is
    structurally recursive on the list of entries or of code units.
    [int] results are the four values [0..3], so no wrap-around arises; code
    units are kept in [Z] with the range predicate [wchar_ok], no
    arithmetic is done on them, and the literals of [main] are shown to lie
    in range and to hold no NUL, and its keys no surrogate
    ([main_literals_well_formed]).  A buffer is a list, and reading it past
    its end is [None] in [CompareStringEx_checked].

    ** Not modelled

    Every definition and statement of the translation unit is modelled: the
    lines of the source that no definition translates are comments, blank
    lines and the five [#include] directives.  What is left out is code of
    the libraries the program calls, which is not in the repository and is
    modelled only as far as the program depends on it.  Of [std::map]: the
    balanced tree and the cost of its operations, the invalidation of
    iterators, allocation failure, and the members that neither the program
    nor its specification names; the container is its in-order sequence.
    Of [std::wstring]: every member but [c_str()] and the literals.  Of the
    debug runtime: the dialog and the report modes themselves, of which the
    program sees the answer ([CrtReport]); an abort and a break both end the
    run at the line of the assertion, and resuming from a debugger after a
    break is not modelled.  Of [wcout]: encoding and buffering.  Of Windows:
    the collation tables, and what [CompareStringEx] does with unpaired
    surrogates, which no key of [main] holds. *)

From Stdlib Require Export ZArith List Bool Lia Sorted.
From stdpp Require Export base tactics option list.

#[global] Open Scope Z_scope.

(** ** Automation *)

Create HintDb cimap discriminated.
Create Rewrite HintDb cimap_rw.

(** Split boolean conjunctions and negations in hypotheses and goal into
    equations on their atoms. *)
Ltac bool_split :=
  repeat match goal with
  | H : _ && _ = true |- _ => apply andb_true_iff in H as [? ?]
  | H : negb _ = true |- _ => apply negb_true_iff in H
  | H : negb _ = false |- _ => apply negb_false_iff in H
  | |- _ && _ = true => apply andb_true_iff; split
  | |- negb _ = true => apply negb_true_iff
  | |- negb _ = false => apply negb_false_iff
  end.

(** Case analysis on the scrutinee of the first [if] or [match] of the goal,
    keeping the equation. *)
Ltac case_goal :=
  match goal with
  | |- context [if ?b then _ else _] => destruct b eqn:?
  | |- context [match ?x with _ => _ end] => destruct x eqn:?
  end.

(** ** Lists *)

(** [insert_at i x l] places [x] before position [i] of [l]: what linking a new
    node in front of an iterator does to the in-order sequence. *)
Definition insert_at {A} (i : nat) (x : A) (l : list A) : list A :=
  take i l ++ x :: drop i l.

(** ** Three-way comparison of lists of code units *)

Definition Zs_compare : list Z → list Z → comparison := list_compare Z.compare.

(** ** The state-and-abort monad

    A computation over a state [S] either returns a value with the new state
    or stops with an error [E], keeping the state reached so far. *)

Inductive outcome (S E A : Type) : Type :=
| Returned (a : A) (s : S)
| Aborted (e : E) (s : S).
Arguments Returned {S E A} a s.
Arguments Aborted {S E A} e s.

(** The state a run ends in, however it ends. *)
Definition final_state {S E A} (o : outcome S E A) : S :=
  match o with Returned _ s | Aborted _ s => s end.

Definition prog (S E A : Type) : Type := S → outcome S E A.

#[export] Instance prog_ret {S E} : MRet (prog S E) := λ A a s, Returned a s.
#[export] Instance prog_bind {S E} : MBind (prog S E) := λ A B f m s,
  match m s with
  | Returned a s' => f a s'
  | Aborted e s' => Aborted e s'
  end.

Definition gets {S E A} (f : S → A) : prog S E A := λ s, Returned (f s) s.
Definition modify {S E} (f : S → S) : prog S E unit := λ s, Returned tt (f s).
Definition abort {S E A} (e : E) : prog S E A := λ s, Aborted e s.

(** The outcome with its state read through [f]. *)
Definition outcome_map {S S' E A} (f : S → S') (o : outcome S E A) : outcome S' E A :=
  match o with
  | Returned a s => Returned a (f s)
  | Aborted e s => Aborted e (f s)
  end.

(** [q] does on the image of a state under [f] what [p] does on the state. *)
Definition simulates {S S' E A} (f : S → S') (p : prog S E A) (q : prog S' E A)
    : Prop :=
  ∀ s, q (f s) = outcome_map f (p s).

Section list_lemmas.
Context {A : Type}.
Implicit Types (l : list A) (x : A) (i : nat).

Lemma insert_at_0 x l : insert_at 0 x l = x :: l.
Proof. done. Qed.

Lemma insert_at_S i x y l : insert_at (S i) x (y :: l) = y :: insert_at i x l.
Proof. done. Qed.

Lemma insert_at_nil i x : insert_at i x [] = [x].
Proof. by destruct i. Qed.

Lemma length_insert_at i x l : length (insert_at i x l) = S (length l).
Proof.
  unfold insert_at. rewrite length_app, length_take. simpl.
  rewrite length_drop. lia.
Qed.

Lemma find_negb_None (f : A → bool) l :
  List.find (λ x, negb (f x)) l = None ↔ forallb f l = true.
Proof.
  induction l as [|x l IH]; [done|]. simpl. destruct (f x); simpl; [done|].
  split; discriminate.
Qed.

Lemma filter_negb_nil (f : A → bool) l :
  List.filter (λ x, negb (f x)) l = [] ↔ forallb f l = true.
Proof.
  induction l as [|x l IH]; simpl; [done|]. destruct (f x); simpl; [done|].
  split; discriminate.
Qed.

Lemma insert_at_Permutation i x l : insert_at i x l ≡ₚ x :: l.
Proof. unfold insert_at. by rewrite <- Permutation_middle, take_drop. Qed.

Lemma forallb_Permutation (f : A → bool) l l' :
  l ≡ₚ l' → forallb f l = forallb f l'.
Proof.
  induction 1 as [|x l l' _ IH|x y l|l l1 l' _ IH1 _ IH2]; simpl; [done| | |congruence].
  - by rewrite IH.
  - by destruct (f x), (f y).
Qed.

Lemma foldl_snoc l l0 : foldl (λ acc x, acc ++ [x]) l0 l = l0 ++ l.
Proof.
  revert l0. induction l as [|x l IH]; intros l0; simpl; [by rewrite app_nil_r|].
  by rewrite IH, <- app_assoc.
Qed.

Lemma delete_S i y l : delete (S i) (y :: l) = y :: delete i l.
Proof. done. Qed.

End list_lemmas.

#[export] Hint Rewrite @insert_at_0 @insert_at_S @insert_at_nil
  @length_insert_at @delete_S : cimap_rw.

Section compare_lemmas.
Implicit Types (a b c : list Z).

Lemma Z_compare_trans (x y z : Z) (r : comparison) :
  (x ?= y) = r → (y ?= z) = r → (x ?= z) = r.
Proof.
  destruct r; rewrite ?Z.compare_eq_iff, ?Z.compare_lt_iff, ?Z.compare_gt_iff; lia.
Qed.

Lemma Zs_compare_eq a b : Zs_compare a b = Eq ↔ a = b.
Proof. apply list_compare_refl, Z.compare_eq_iff. Qed.

Lemma Zs_compare_refl a : Zs_compare a a = Eq.
Proof. by apply Zs_compare_eq. Qed.

Lemma Zs_compare_antisym a b : Zs_compare b a = CompOpp (Zs_compare a b).
Proof.
  apply list_compare_antisym; [apply Z.compare_eq_iff|].
  intros x y. apply Z.compare_antisym.
Qed.

Lemma Zs_compare_trans a b c r :
  Zs_compare a b = r → Zs_compare b c = r → Zs_compare a c = r.
Proof.
  apply list_compare_trans; [apply Z.compare_eq_iff|apply Z_compare_trans|].
  intros x y. apply Z.compare_antisym.
Qed.

Lemma Zs_compare_lt_gt a b : Zs_compare a b = Lt ↔ Zs_compare b a = Gt.
Proof. rewrite (Zs_compare_antisym a b). by destruct (Zs_compare a b). Qed.

End compare_lemmas.

Section prog_lemmas.
Context {S E : Type}.

Lemma prog_bind_returned {A B} (m : prog S E A) (f : A → prog S E B) s a s' :
  m s = Returned a s' → (m ≫= f) s = f a s'.
Proof. unfold mbind, prog_bind. by intros ->. Qed.

Lemma prog_bind_aborted {A B} (m : prog S E A) (f : A → prog S E B) s e s' :
  m s = Aborted e s' → (m ≫= f) s = Aborted e s'.
Proof. unfold mbind, prog_bind. by intros ->. Qed.

Lemma prog_bind_inv {A B} (m : prog S E A) (f : A → prog S E B) s b s2 :
  (m ≫= f) s = Returned b s2 →
  ∃ a s1, m s = Returned a s1 ∧ f a s1 = Returned b s2.
Proof. unfold mbind, prog_bind. destruct (m s); naive_solver. Qed.

End prog_lemmas.

(** Two programs over two states, built alike from parts of which one
    simulates the other. *)
Section simulation.
Context {S S' E : Type} (f : S → S').

Lemma simulates_ret {A} (a : A) : simulates f (mret a : prog S E A) (mret a).
Proof. done. Qed.

Lemma simulates_abort {A} (e : E) : simulates f (abort e : prog S E A) (abort e).
Proof. done. Qed.

Lemma simulates_modify (g : S → S) (g' : S' → S') :
  (∀ s, g' (f s) = f (g s)) → simulates f (modify g : prog S E unit) (modify g').
Proof. intros Hg s. unfold modify. simpl. by rewrite Hg. Qed.

Lemma simulates_bind {A B} (p : prog S E A) (q : prog S' E A)
    (k : A → prog S E B) (k' : A → prog S' E B) :
  simulates f p q → (∀ a, simulates f (k a) (k' a)) →
  simulates f (p ≫= k) (q ≫= k').
Proof.
  intros Hp Hk s. unfold mbind, prog_bind. rewrite Hp.
  destruct (p s) as [a s1|e s1]; [apply Hk|done].
Qed.

End simulation.
