(* ===== verification/Ordering.v ===== *)
(** * Ordering: the contract between a comparison object and [std::map]

    [std::map<Key, T, Compare>] calls [Compare::operator()] and nothing else
    to place and find keys.  [Compare] below is that call; [StrictWeakOrder]
    is what the container requires of it; [equivb] is the container's notion
    of "same key" ([!comp(a, b) && !comp(b, a)]).  The lemmas of this file are
    all a client of the interface may use: [StdMap] is proved against them and
    [Comparator] discharges them for [StringIgnoreCaseLess]. *)

From S2P Require Import Prelude.

Declare Scope cmp_scope.
Delimit Scope cmp_scope with cmp.

(** The comparison object: [less a b] is [comp(a, b)]. *)
Class Compare (K : Type) := less : K → K → bool.
#[global] Hint Mode Compare ! : typeclass_instances.

(** Key equivalence as the container computes it. *)
Definition equivb {K} {C : Compare K} (a b : K) : bool :=
  negb (less a b) && negb (less b a).

Definition keq {K} {C : Compare K} : relation K := λ a b, equivb a b = true.

Notation "a ≺ b" := (less a b = true) (at level 70) : cmp_scope.
Notation "a ≍ b" := (keq a b) (at level 70) : cmp_scope.
#[global] Open Scope cmp_scope.

(** The named requirement: irreflexive, transitive, and with a transitive
    incomparability relation. *)
Class StrictWeakOrder {K} (C : Compare K) : Prop := {
  less_irrefl (a : K) : less a a = false;
  less_trans (a b c : K) : a ≺ b → b ≺ c → a ≺ c;
  keq_trans (a b c : K) : a ≍ b → b ≍ c → a ≍ c;
}.

(** Case analysis on a comparison occurring in the goal. *)
Ltac case_less :=
  match goal with
  | |- context [less ?a ?b] => destruct (less a b) eqn:?
  end.

(** Unfold key equivalences into their two comparisons. *)
Ltac keq_split :=
  unfold keq, equivb in *; bool_split.

Section order.
Context {K : Type} {C : Compare K} {SWO : StrictWeakOrder C}.
Implicit Types a b c : K.

Lemma keq_iff a b : a ≍ b ↔ less a b = false ∧ less b a = false.
Proof. unfold keq, equivb. destruct (less a b), (less b a); simpl; intuition congruence. Qed.

Lemma equivb_false a b : equivb a b = false ↔ a ≺ b ∨ b ≺ a.
Proof. unfold equivb. destruct (less a b), (less b a); simpl; intuition congruence. Qed.

Lemma equivb_sym a b : equivb a b = equivb b a.
Proof. unfold equivb. apply andb_comm. Qed.

Lemma less_asym a b : a ≺ b → less b a = false.
Proof.
  intros Hab. destruct (less b a) eqn:Hba; [|done].
  by rewrite <- (less_irrefl a), <- (less_trans a b a Hab Hba).
Qed.

Lemma keq_refl a : a ≍ a.
Proof. apply keq_iff. by rewrite less_irrefl. Qed.

Lemma keq_sym a b : a ≍ b → b ≍ a.
Proof. rewrite !keq_iff. tauto. Qed.

#[export] Instance keq_equivalence : Equivalence (keq (K:=K)).
Proof. split; [exact keq_refl | exact keq_sym | exact keq_trans]. Qed.

Lemma less_not_keq a b : a ≺ b → ¬ a ≍ b.
Proof. rewrite keq_iff. intros ? [? _]. congruence. Qed.

(** Exactly one of [a ≺ b], [a ≍ b], [b ≺ a] holds. *)
Lemma less_cases a b :
  (a ≺ b ∧ less b a = false ∧ equivb a b = false) ∨
  (less a b = false ∧ less b a = false ∧ equivb a b = true) ∨
  (less a b = false ∧ b ≺ a ∧ equivb a b = false).
Proof.
  unfold equivb. destruct (less a b) eqn:Hab, (less b a) eqn:Hba; simpl; auto.
  by rewrite (less_asym a b Hab) in Hba.
Qed.

Lemma less_keq_l a b c : a ≍ b → a ≺ c → b ≺ c.
Proof.
  intros Hab Hac. destruct (less b c) eqn:Hbc; [done|].
  destruct (less c b) eqn:Hcb.
  - apply less_not_keq in Hab; [done|]. by apply less_trans with c.
  - destruct (less_not_keq a c Hac). transitivity b; [done|]. by apply keq_iff.
Qed.

Lemma less_keq_r a b c : a ≍ b → c ≺ a → c ≺ b.
Proof.
  intros Hab Hca. destruct (less c b) eqn:Hcb; [done|].
  destruct (less b c) eqn:Hbc.
  - apply keq_sym, less_not_keq in Hab; [done|]. by apply less_trans with c.
  - destruct (less_not_keq c a Hca). transitivity b; [|by symmetry].
    by apply keq_iff.
Qed.

#[export] Instance less_proper : Proper (keq ==> keq ==> eq) (less (K:=K)).
Proof.
  intros a a' Ha b b' Hb.
  destruct (less a b) eqn:Hab, (less a' b') eqn:Hab'; try done.
  - rewrite <- Hab'. symmetry. by eapply less_keq_l, less_keq_r.
  - rewrite <- Hab. symmetry in Ha, Hb. by eapply less_keq_l, less_keq_r.
Qed.

Lemma less_keq_eq_l a b c : a ≍ b → less a c = less b c.
Proof. intros Hab. by rewrite Hab. Qed.

Lemma less_keq_eq_r a b c : a ≍ b → less c a = less c b.
Proof. intros Hab. by rewrite Hab. Qed.

Lemma equivb_keq_eq_l a b c : a ≍ b → equivb a c = equivb b c.
Proof. intros Hab. unfold equivb. by rewrite Hab. Qed.

Lemma equivb_keq_eq_r a b c : a ≍ b → equivb c a = equivb c b.
Proof. intros Hab. unfold equivb. by rewrite Hab. Qed.

(** A key equivalent to [b] is not equivalent to a key that [b] differs
    from. *)
Lemma equivb_other a b c : a ≍ b → equivb c b = false → equivb a c = false.
Proof. intros Hab Hc. by rewrite (equivb_keq_eq_l a b c Hab), equivb_sym. Qed.

#[export] Instance equivb_proper : Proper (keq ==> keq ==> eq) (equivb (K:=K)).
Proof. intros a a' Ha b b' Hb. unfold equivb. by rewrite Ha, Hb. Qed.

(** "Not less" is transitive: the non-strict order is a preorder. *)
Lemma not_less_trans a b c : less b a = false → less c b = false → less c a = false.
Proof.
  intros Hba Hcb. destruct (less c a) eqn:Hca; [|done].
  destruct (less a b) eqn:Hab.
  - by rewrite (less_trans c a b Hca Hab) in Hcb.
  - assert (a ≍ b) as Heq by by apply keq_iff.
    by rewrite <- Heq, Hca in Hcb.
Qed.

Lemma less_not_less_trans a b c : a ≺ b → less c b = false → a ≺ c.
Proof.
  intros Hab Hcb. destruct (less a c) eqn:Hac; [done|].
  by rewrite (not_less_trans b c a) in Hab.
Qed.

Lemma not_less_less_trans a b c : less b a = false → b ≺ c → a ≺ c.
Proof.
  intros Hba Hbc. destruct (less a c) eqn:Hac; [done|].
  by rewrite (not_less_trans c a b) in Hbc.
Qed.

End order.

#[export] Hint Resolve less_irrefl less_asym keq_refl keq_sym less_keq_l
  less_keq_r not_less_trans less_not_less_trans not_less_less_trans : cimap.
#[export] Hint Rewrite @less_irrefl using (typeclasses eauto) : cimap_rw.
