(* ===== verification/Collation.v ===== *)
(** * Collation: wide strings and the platform's [CompareStringEx]

    What the program takes from its environment: [std::wstring] and its
    [c_str()], the constants of [Windows.h] it names, and the collation API.
    The API is split in two.  [TextCollator] is the facility that orders two
    exact strings for a locale name and a flag word (the tables of the
    platform); [CompareStringEx] is the documented calling convention around
    it: buffers with a count, a negative count meaning "up to the first NUL",
    reserved arguments that must be null and zero, and [0] for failure.
    [extent] is the number of code units that the call reads from a buffer,
    and [CompareStringEx_checked] is the call with the precondition that no
    buffer is read past its end.

    [CollatorLaws] states what a sound collation promises for one locale and
    flag word.  The tables of the platform are not reproduced.  Three
    collations of the development's own serve to run the definitions:
    [latin1_collator] satisfies the laws; under [NORM_IGNORECASE] it
    upper-cases the letters of Basic Latin and of the Latin-1 Supplement and
    compares code units lexicographically; with flag word [0] it compares
    code units as they are; it knows no locale but the invariant one and no
    other flag, and fails on them.  [ordinal_collator] is sound and does not
    fold case; every call of [failing_collator] fails. *)

From Stdlib Require Import Ascii String.
From S2P Require Import Prelude.

(** ** Wide characters and strings *)

(** [wchar_t] on Windows: an unsigned 16-bit code unit. *)
Definition wchar : Type := Z.

Definition wchar_ok (c : wchar) : bool := (0 <=? c) && (c <? 65536).

(** A code unit that is one half of a surrogate pair. *)
Definition surrogate (c : wchar) : bool := (0xD800 <=? c) && (c <=? 0xDFFF).

(** [std::wstring]: a counted sequence of code units; it may contain NULs. *)
Definition wstring : Type := list wchar.

Definition wstring_ok (s : wstring) : bool := forallb wchar_ok s.

(** The wide literal [L"..."] of an ASCII literal. *)
Definition L (s : string) : wstring :=
  map (λ a, Z.of_N (N_of_ascii a)) (list_ascii_of_string s).
Arguments L s%_string_scope.

(** [s.c_str()]: the characters of [s] followed by a terminating NUL. *)
Definition c_str (s : wstring) : list wchar := s ++ [0].

(** ** Constants of [Windows.h] *)

Definition LOCALE_NAME_INVARIANT : wstring := [].
Definition NORM_IGNORECASE : Z := 1.
Definition CSTR_LESS_THAN : Z := 1.
Definition CSTR_EQUAL : Z := 2.
Definition CSTR_GREATER_THAN : Z := 3.

(** Arithmetic on the result codes. *)
Ltac cstr_solve :=
  unfold CSTR_LESS_THAN, CSTR_EQUAL, CSTR_GREATER_THAN in *; (lia || congruence).

(** ** The collation facility *)

(** [collate locale flags a b] orders the exact strings [a] and [b]: one of
    [CSTR_LESS_THAN], [CSTR_EQUAL], [CSTR_GREATER_THAN], or [0] on failure. *)
Class TextCollator := collate : wstring → Z → wstring → wstring → Z.

(** The characters of a buffer up to, and without, its first NUL. *)
Fixpoint until_nul (buf : list wchar) : wstring :=
  match buf with
  | [] => []
  | c :: rest => if c =? 0 then [] else c :: until_nul rest
  end.

(** The string a (buffer, count) pair denotes: a negative count means that
    the buffer is NUL-terminated. *)
Definition counted (buf : list wchar) (cch : Z) : wstring :=
  if cch <? 0 then until_nul buf else take (Z.to_nat cch) buf.

(** The number of code units of the buffer that are read for a count: with
    a negative count, everything up to and including the first NUL. *)
Definition extent (buf : list wchar) (cch : Z) : nat :=
  if cch <? 0 then S (length (until_nul buf)) else Z.to_nat cch.

(** Whether the read of a (buffer, count) pair stays inside the buffer. *)
Definition readable (buf : list wchar) (cch : Z) : bool :=
  (extent buf cch <=? length buf)%nat.

(** [CompareStringEx]: the reserved pointer must be null and the reserved
    [lParam] zero, otherwise the call fails. *)
Definition CompareStringEx {T : TextCollator}
    (lpLocaleName : wstring) (dwCmpFlags : Z)
    (lpString1 : list wchar) (cchCount1 : Z)
    (lpString2 : list wchar) (cchCount2 : Z)
    (lpVersionInformation lpReserved : option unit) (lParam : Z) : Z :=
  match lpReserved with
  | Some _ => 0
  | None =>
      if lParam =? 0
      then collate lpLocaleName dwCmpFlags
             (counted lpString1 cchCount1) (counted lpString2 cchCount2)
      else 0
  end.

(** The call with its precondition checked: [None] when a buffer would be
    read past its end, which the API leaves undefined. *)
Definition CompareStringEx_checked {T : TextCollator}
    (lpLocaleName : wstring) (dwCmpFlags : Z)
    (lpString1 : list wchar) (cchCount1 : Z)
    (lpString2 : list wchar) (cchCount2 : Z)
    (lpVersionInformation lpReserved : option unit) (lParam : Z) : option Z :=
  if readable lpString1 cchCount1 && readable lpString2 cchCount2
  then Some (CompareStringEx lpLocaleName dwCmpFlags lpString1 cchCount1
               lpString2 cchCount2 lpVersionInformation lpReserved lParam)
  else None.

(** What a sound collation promises for the locale [loc] and flags [fl]: it
    succeeds, it is antisymmetric, and "less" and "equal" are transitive. *)
Class CollatorLaws (T : TextCollator) (loc : wstring) (fl : Z) : Prop := {
  collate_range a b : 1 ≤ collate loc fl a b ≤ 3;
  collate_swap a b :
    collate loc fl a b = CSTR_LESS_THAN ↔ collate loc fl b a = CSTR_GREATER_THAN;
  collate_lt_trans a b c :
    collate loc fl a b = CSTR_LESS_THAN → collate loc fl b c = CSTR_LESS_THAN →
    collate loc fl a c = CSTR_LESS_THAN;
  collate_eq_trans a b c :
    collate loc fl a b = CSTR_EQUAL → collate loc fl b c = CSTR_EQUAL →
    collate loc fl a c = CSTR_EQUAL;
}.

(** ** Collations to run the definitions on *)

(** The collations below are the development's own.  Witnesses and examples
    run on them; nothing is claimed of the platform's tables through
    them. *)

(** Upper-casing of Basic Latin ([a]-[z]) and of the Latin-1 Supplement
    ([U+00E0]-[U+00FE] but the division sign [U+00F7]); every other code unit,
    among them [U+00DF] and [U+00FF] whose capitals lie outside Latin-1, is
    left as it is. *)
Definition towupper_latin1 (c : wchar) : wchar :=
  if (97 <=? c) && (c <=? 122) then c - 32
  else if (224 <=? c) && (c <=? 254) && negb (c =? 247) then c - 32
  else c.

Definition cstr_of (c : comparison) : Z :=
  match c with
  | Lt => CSTR_LESS_THAN
  | Eq => CSTR_EQUAL
  | Gt => CSTR_GREATER_THAN
  end.

Definition latin1_collator : TextCollator := λ locale flags a b,
  match locale with
  | [] =>
      if flags =? NORM_IGNORECASE
      then cstr_of (Zs_compare (map towupper_latin1 a) (map towupper_latin1 b))
      else if flags =? 0 then cstr_of (Zs_compare a b)
      else 0
  | _ :: _ => 0
  end.

(** A collation that compares code units as they are, whatever the locale
    and the flags: it does not fold case. *)
Definition ordinal_collator : TextCollator := λ _ _ a b, cstr_of (Zs_compare a b).

(** A collation whose calls all fail. *)
Definition failing_collator : TextCollator := λ _ _ _ _, 0.

(** ** Buffers *)

Section buffers.
Implicit Types (s r : wstring) (c : wchar).

Lemma until_nul_app_nul s r : until_nul (s ++ 0 :: r) = until_nul s.
Proof. induction s as [|c s IH]; simpl; [done|]. by rewrite IH. Qed.

Lemma until_nul_c_str s : until_nul (c_str s) = until_nul s.
Proof. apply until_nul_app_nul. Qed.

Lemma until_nul_no_nul s : Forall (λ c, c ≠ 0) s → until_nul s = s.
Proof.
  induction 1 as [|c s Hc _ IH]; simpl; [done|].
  destruct (Z.eqb_spec c 0); [done|]. by rewrite IH.
Qed.

Lemma until_nul_Forall s : Forall (λ c, c ≠ 0) (until_nul s).
Proof.
  induction s as [|c s IH]; simpl; [constructor|].
  destruct (Z.eqb_spec c 0); by constructor.
Qed.

Lemma until_nul_idemp s : until_nul (until_nul s) = until_nul s.
Proof. apply until_nul_no_nul, until_nul_Forall. Qed.

Lemma until_nul_prefix s : until_nul s `prefix_of` s.
Proof.
  induction s as [|c s IH]; simpl; [done|].
  destruct (c =? 0); [apply prefix_nil | by apply prefix_cons].
Qed.

Lemma length_until_nul s : (length (until_nul s) ≤ length s)%nat.
Proof. apply prefix_length, until_nul_prefix. Qed.

(** A NUL-terminated read stays inside the buffer exactly when the buffer
    holds a NUL. *)
Lemma readable_nul s cch : cch < 0 → readable s cch = true ↔ 0 ∈ s.
Proof.
  intros Hc. unfold readable, extent. rewrite (proj2 (Z.ltb_lt _ _) Hc), Nat.leb_le.
  induction s as [|c s IH]; simpl; [rewrite elem_of_nil; lia|].
  rewrite elem_of_cons. destruct (Z.eqb_spec c 0) as [->|]; simpl; [split; [auto|lia]|].
  rewrite <- IH. split; [right|intros [|]]; lia.
Qed.

(** A counted read stays inside the buffer exactly when the count does, and
    what is read is what the count denotes. *)
Lemma readable_count s cch : 0 ≤ cch → readable s cch = true ↔ cch ≤ Z.of_nat (length s).
Proof. intros Hc. unfold readable, extent. rewrite (proj2 (Z.ltb_ge _ _) Hc), Nat.leb_le. lia. Qed.

(** The buffer of [c_str()] is read up to its terminator, at most. *)
Lemma extent_c_str s cch :
  cch < 0 →
  (extent (c_str s) cch = S (length (until_nul s)) ∧
   extent (c_str s) cch ≤ length (c_str s))%nat.
Proof.
  intros Hc. unfold extent. rewrite (proj2 (Z.ltb_lt _ _) Hc), until_nul_c_str.
  unfold c_str. rewrite length_app. pose proof (length_until_nul s). simpl. lia.
Qed.

Lemma readable_c_str s cch : cch < 0 → readable (c_str s) cch = true.
Proof. intros Hc. apply Nat.leb_le. by apply extent_c_str. Qed.

Lemma counted_c_str s : counted (c_str s) (-1) = until_nul s.
Proof. unfold counted. simpl. apply until_nul_c_str. Qed.

Lemma counted_exact s : counted s (Z.of_nat (length s)) = s.
Proof.
  unfold counted. destruct (Z.ltb_spec (Z.of_nat (length s)) 0); [lia|].
  by rewrite Nat2Z.id, firstn_all.
Qed.

End buffers.

#[export] Hint Rewrite until_nul_app_nul until_nul_c_str until_nul_idemp
  counted_c_str : cimap_rw.

(** ** These collations are sound *)

Section latin1.

Lemma cstr_of_range r : 1 ≤ cstr_of r ≤ 3.
Proof. destruct r; unfold cstr_of; cstr_solve. Qed.

Lemma cstr_of_lt r : cstr_of r = CSTR_LESS_THAN ↔ r = Lt.
Proof. by destruct r. Qed.

Lemma cstr_of_eq r : cstr_of r = CSTR_EQUAL ↔ r = Eq.
Proof. by destruct r. Qed.

Lemma cstr_of_gt r : cstr_of r = CSTR_GREATER_THAN ↔ r = Gt.
Proof. by destruct r. Qed.

(** Any collation that compares images under a key function by [Zs_compare]
    is sound. *)
Lemma keyed_compare_laws (T : TextCollator) loc fl (key : wstring → list Z) :
  (∀ a b, collate loc fl a b = cstr_of (Zs_compare (key a) (key b))) →
  CollatorLaws T loc fl.
Proof.
  intros Hc. split; intros *; rewrite !Hc.
  - apply cstr_of_range.
  - rewrite cstr_of_lt, cstr_of_gt. apply Zs_compare_lt_gt.
  - rewrite !cstr_of_lt. apply Zs_compare_trans.
  - rewrite !cstr_of_eq. apply Zs_compare_trans.
Qed.

#[export] Instance latin1_ignore_case_laws :
  CollatorLaws latin1_collator LOCALE_NAME_INVARIANT NORM_IGNORECASE.
Proof. by apply keyed_compare_laws with (key := map towupper_latin1). Qed.

#[export] Instance ordinal_collator_laws loc fl : CollatorLaws ordinal_collator loc fl.
Proof. by apply keyed_compare_laws with (key := id). Qed.

End latin1.

(** ** Consequences of the laws *)

Section laws.
Context {T : TextCollator} {loc : wstring} {fl : Z} {HL : CollatorLaws T loc fl}.
Implicit Types a b c : wstring.

Lemma collate_cases a b :
  collate loc fl a b = CSTR_LESS_THAN ∨ collate loc fl a b = CSTR_EQUAL ∨
  collate loc fl a b = CSTR_GREATER_THAN.
Proof.
  pose proof (collate_range a b). cstr_solve.
Qed.

Lemma collate_refl a : collate loc fl a a = CSTR_EQUAL.
Proof.
  destruct (collate_cases a a) as [H|[H|H]]; [|done|].
  - pose proof (proj1 (collate_swap a a) H). cstr_solve.
  - pose proof (proj2 (collate_swap a a) H). cstr_solve.
Qed.

Lemma collate_eq_sym a b :
  collate loc fl a b = CSTR_EQUAL → collate loc fl b a = CSTR_EQUAL.
Proof.
  intros Hab. destruct (collate_cases b a) as [H|[H|H]]; [|done|].
  - apply collate_swap in H. cstr_solve.
  - apply collate_swap in H. cstr_solve.
Qed.

Lemma collate_not_less a b :
  collate loc fl a b ≠ CSTR_LESS_THAN → collate loc fl b a ≠ CSTR_LESS_THAN →
  collate loc fl a b = CSTR_EQUAL.
Proof.
  intros Hab Hba. destruct (collate_cases a b) as [H|[H|H]]; [done..|].
  by apply collate_swap in H.
Qed.

End laws.
