(* ===== verification/Comparator.v ===== *)
(** * Comparator: [CompareStringIgnoreCase] and [StringIgnoreCaseLess]

    The two definitions of the source's "infrastructure" block, argument for
    argument, over any [TextCollator].  The call that the wrapper makes is
    written once, in [CompareStringIgnoreCase_body], over the entry point it
    is passed to: with [CompareStringEx] it is the wrapper, and with
    [CompareStringEx_checked] it is the same call under the precondition of
    the API on its buffers.

    The laws of the comparison object are proved from [CollatorLaws] for the
    invariant locale and [NORM_IGNORECASE], which discharges the
    [StrictWeakOrder] interface the container builds on.  Three behaviours of
    the wrapper itself need no law: it is one collation of the keys up to
    their first NUL, a failed API call reads as "not less", and the call
    never reads past the terminator of a buffer. *)

From Stdlib Require Import String.
From S2P Require Import Prelude Ordering Collation.

(** The call that the wrapper makes, over the entry point [api] it calls:
    the nine arguments, as the source passes them. *)
Definition CompareStringIgnoreCase_body {R : Type}
    (api : wstring → Z → list wchar → Z → list wchar → Z →
           option unit → option unit → Z → R)
    (s1 s2 : wstring) : R :=
  api
    LOCALE_NAME_INVARIANT
    NORM_IGNORECASE
    (c_str s1)
    (-1)
    (c_str s2)
    (-1)
    None
    None
    0.

(** Wrapper around the Windows [CompareStringEx] C API. *)
Definition CompareStringIgnoreCase {T : TextCollator} (s1 s2 : wstring) : Z :=
  CompareStringIgnoreCase_body CompareStringEx s1 s2.

(** Comparison object for [std::map], ignoring string case:
    [(s1 < s2)] ignoring string case. *)
#[export] Instance StringIgnoreCaseLess {T : TextCollator} : Compare wstring :=
  λ s1 s2, CompareStringIgnoreCase s1 s2 =? CSTR_LESS_THAN.

(** The collation the wrapper asks for. *)
Abbreviation InvariantIgnoreCase T :=
  (CollatorLaws T LOCALE_NAME_INVARIANT NORM_IGNORECASE).

Section wrapper.
Context {T : TextCollator}.
Implicit Types s a b c x y : wstring.

(** The call reduces to one collation of the NUL-truncated keys. *)
Lemma CompareStringIgnoreCase_collate s1 s2 :
  CompareStringIgnoreCase s1 s2 =
  collate LOCALE_NAME_INVARIANT NORM_IGNORECASE (until_nul s1) (until_nul s2).
Proof.
  unfold CompareStringIgnoreCase, CompareStringIgnoreCase_body, CompareStringEx, counted.
  simpl. by rewrite ?until_nul_c_str.
Qed.

Lemma CompareStringIgnoreCase_until_nul s1 s2 :
  CompareStringIgnoreCase (until_nul s1) (until_nul s2) = CompareStringIgnoreCase s1 s2.
Proof. by rewrite !CompareStringIgnoreCase_collate, !until_nul_idemp. Qed.

Lemma less_unfold s1 s2 :
  less s1 s2 = (CompareStringIgnoreCase s1 s2 =? CSTR_LESS_THAN).
Proof. done. Qed.

Lemma less_true s1 s2 : s1 ≺ s2 ↔ CompareStringIgnoreCase s1 s2 = CSTR_LESS_THAN.
Proof. rewrite less_unfold. apply Z.eqb_eq. Qed.

Lemma less_false s1 s2 :
  less s1 s2 = false ↔ CompareStringIgnoreCase s1 s2 ≠ CSTR_LESS_THAN.
Proof. rewrite less_unfold. apply Z.eqb_neq. Qed.

Lemma less_until_nul s1 s2 : less (until_nul s1) (until_nul s2) = less s1 s2.
Proof. by rewrite !less_unfold, CompareStringIgnoreCase_until_nul. Qed.

Section lawful.
Context {HL : InvariantIgnoreCase T}.

Lemma CompareStringIgnoreCase_swap a b :
  CompareStringIgnoreCase a b = CSTR_LESS_THAN ↔
  CompareStringIgnoreCase b a = CSTR_GREATER_THAN.
Proof. rewrite !CompareStringIgnoreCase_collate. apply collate_swap. Qed.

Lemma keq_equal a b : a ≍ b ↔ CompareStringIgnoreCase a b = CSTR_EQUAL.
Proof.
  rewrite keq_iff, !less_false, !CompareStringIgnoreCase_collate. split.
  - intros [? ?]. by apply collate_not_less.
  - intros H. pose proof (collate_eq_sym _ _ H). split; cstr_solve.
Qed.

Lemma equivb_equal a b : equivb a b = (CompareStringIgnoreCase a b =? CSTR_EQUAL).
Proof.
  destruct (Z.eqb_spec (CompareStringIgnoreCase a b) CSTR_EQUAL) as [He|He].
  - by apply keq_equal.
  - destruct (equivb a b) eqn:Hab; [|done]. by apply keq_equal in Hab.
Qed.

#[export] Instance StringIgnoreCaseLess_swo : StrictWeakOrder StringIgnoreCaseLess.
Proof.
  split.
  - intros a. apply less_false.
    rewrite CompareStringIgnoreCase_collate, collate_refl. cstr_solve.
  - intros a b c. rewrite !less_true, !CompareStringIgnoreCase_collate.
    apply collate_lt_trans.
  - intros a b c. rewrite !keq_equal, !CompareStringIgnoreCase_collate.
    apply collate_eq_trans.
Qed.

Lemma keq_until_nul s : until_nul s ≍ s.
Proof.
  rewrite keq_equal, <- CompareStringIgnoreCase_until_nul, until_nul_idemp.
  rewrite CompareStringIgnoreCase_until_nul. apply keq_equal. reflexivity.
Qed.

End lawful.
End wrapper.

#[export] Hint Rewrite @CompareStringIgnoreCase_until_nul @less_until_nul : cimap_rw.
#[export] Hint Resolve keq_until_nul StringIgnoreCaseLess_swo : cimap.

(** ** Properties of the comparator *)

Section properties.
Context {T : TextCollator}.
Implicit Types s a b c x y : wstring.

(** C1. Under a sound collation, [StringIgnoreCaseLess] is a strict weak
    order: no key is less than itself, "less" is asymmetric and transitive,
    and keys that are incomparable with a common key are incomparable with
    each other. *)
Theorem StringIgnoreCaseLess_strict_weak_order (HL : InvariantIgnoreCase T) :
  (∀ a, StringIgnoreCaseLess a a = false) ∧
  (∀ a b, StringIgnoreCaseLess a b = true → StringIgnoreCaseLess b a = false) ∧
  (∀ a b c, StringIgnoreCaseLess a b = true → StringIgnoreCaseLess b c = true →
            StringIgnoreCaseLess a c = true) ∧
  (∀ a b c,
     StringIgnoreCaseLess a b = false → StringIgnoreCaseLess b a = false →
     StringIgnoreCaseLess b c = false → StringIgnoreCaseLess c b = false →
     StringIgnoreCaseLess a c = false ∧ StringIgnoreCaseLess c a = false).
Proof.
  repeat split.
  - exact less_irrefl.
  - exact less_asym.
  - exact less_trans.
  - by apply (not_less_trans (C := StringIgnoreCaseLess)) with b.
  - by apply (not_less_trans (C := StringIgnoreCaseLess)) with b.
Qed.

(** C22. Under a sound collation the two answers of the comparison object
    determine the three-way result of the wrapper: the container loses
    nothing by asking for "less" only. *)
Theorem CompareStringIgnoreCase_from_less (HL : InvariantIgnoreCase T) a b :
  CompareStringIgnoreCase a b =
  if StringIgnoreCaseLess a b then CSTR_LESS_THAN
  else if StringIgnoreCaseLess b a then CSTR_GREATER_THAN
  else CSTR_EQUAL.
Proof.
  destruct (StringIgnoreCaseLess a b) eqn:Hab; [by apply less_true|].
  destruct (StringIgnoreCaseLess b a) eqn:Hba.
  - by apply CompareStringIgnoreCase_swap, less_true.
  - by apply keq_equal, keq_iff.
Qed.

(** C23. Under a sound collation the comparison object cannot tell case variants
    apart: replacing each argument by a key equal to it ignoring case does
    not change the answer. *)
Theorem StringIgnoreCaseLess_respects_case (HL : InvariantIgnoreCase T) a a' b b' :
  CompareStringIgnoreCase a a' = CSTR_EQUAL →
  CompareStringIgnoreCase b b' = CSTR_EQUAL →
  StringIgnoreCaseLess a b = StringIgnoreCaseLess a' b'.
Proof.
  intros Ha%keq_equal Hb%keq_equal.
  exact (eq_trans (less_keq_eq_l a a' b Ha) (less_keq_eq_r b b' a' Hb)).
Qed.

(** C11. Whatever the collation, a call of the wrapper is one collation, under
    the invariant locale and with [NORM_IGNORECASE] as the only flag, of the
    two keys up to their first NUL, hence of the keys themselves when they
    hold no NUL; the reserved arguments are passed as the API wants them, so
    that it does not refuse the call. *)
Theorem CompareStringIgnoreCase_one_collation s1 s2 :
  CompareStringIgnoreCase s1 s2 =
    collate LOCALE_NAME_INVARIANT NORM_IGNORECASE (until_nul s1) (until_nul s2) ∧
  (Forall (λ u : wchar, u ≠ 0) s1 → Forall (λ u : wchar, u ≠ 0) s2 →
   CompareStringIgnoreCase s1 s2 =
     collate LOCALE_NAME_INVARIANT NORM_IGNORECASE s1 s2).
Proof.
  split; [apply CompareStringIgnoreCase_collate|]. intros H1 H2.
  by rewrite CompareStringIgnoreCase_collate, !until_nul_no_nul.
Qed.

(** C20. Whatever the collation, the wrapper compares only what precedes the
    first NUL of each key, because the buffers are passed with length [-1]:
    a NUL embedded in a key hides the rest of the key. *)
Theorem CompareStringIgnoreCase_stops_at_nul a b x y :
  CompareStringIgnoreCase (a ++ 0 :: x) (b ++ 0 :: y) = CompareStringIgnoreCase a b.
Proof. by rewrite !CompareStringIgnoreCase_collate, !until_nul_app_nul. Qed.

(** C24. Two keys that differ only after an embedded NUL are one key for the
    comparison object. *)
Theorem StringIgnoreCaseLess_nul_suffix_equivalent (HL : InvariantIgnoreCase T) a x y :
  equivb (C := StringIgnoreCaseLess) (a ++ 0 :: x) (a ++ 0 :: y) = true.
Proof.
  apply keq_equal. rewrite CompareStringIgnoreCase_collate, !until_nul_app_nul.
  apply collate_refl.
Qed.

(** C18. A failed call of the API (result [0]) is read as "not less": when the
    collation fails in both directions the two keys are equivalent. *)
Theorem StringIgnoreCaseLess_failure_is_equivalence a b :
  CompareStringIgnoreCase a b = 0 → CompareStringIgnoreCase b a = 0 →
  StringIgnoreCaseLess a b = false ∧ StringIgnoreCaseLess b a = false ∧
  equivb (C := StringIgnoreCaseLess) a b = true.
Proof.
  intros Hab Hba. unfold equivb, less, StringIgnoreCaseLess. by rewrite Hab, Hba.
Qed.

End properties.

(** ** The call stays inside its buffers *)

Section bounds.
Context {T : TextCollator}.
Implicit Types s : wstring.

(** C12. The call that [CompareStringIgnoreCase] makes never reads past the end
    of a buffer, whatever the keys: made under the precondition of the API,
    that every buffer is read inside its bounds, the call of the wrapper
    returns, and returns the result of the wrapper.  It does because
    [c_str()] ends each buffer with the NUL up to which the length [-1]
    makes the API read. *)
Theorem CompareStringIgnoreCase_reads_in_bounds s1 s2 :
  CompareStringIgnoreCase_body CompareStringEx_checked s1 s2 =
  Some (CompareStringIgnoreCase s1 s2).
Proof.
  unfold CompareStringIgnoreCase_body, CompareStringEx_checked.
  by rewrite !readable_c_str.
Qed.

(** The terminator is what makes the call safe: the characters of a key
    without a NUL, passed without it, are not a readable buffer. *)
Lemma CompareStringEx_checked_unterminated s1 s2 :
  0 ∉ s1 →
  CompareStringEx_checked LOCALE_NAME_INVARIANT NORM_IGNORECASE
    s1 (-1) (c_str s2) (-1) None None 0 = None.
Proof.
  intros Hs. unfold CompareStringEx_checked.
  destruct (readable s1 (-1)) eqn:Hr; [|done]. by apply readable_nul in Hr.
Qed.

End bounds.

(** ** Witnesses *)

Lemma StringIgnoreCaseLess_strict_weak_order_witness :
  (∀ a, StringIgnoreCaseLess (T := latin1_collator) a a = false) ∧
  StringIgnoreCaseLess (T := latin1_collator) (L "ciao") (L "Gatto") = true.
Proof.
  split; [|vm_compute; reflexivity].
  apply (StringIgnoreCaseLess_strict_weak_order (T := latin1_collator) _).
Defined.

Lemma CompareStringIgnoreCase_one_collation_witness :
  CompareStringIgnoreCase (T := ordinal_collator) (L "ciao") (L "Ciao") =
  collate (TextCollator := ordinal_collator) LOCALE_NAME_INVARIANT NORM_IGNORECASE
    (L "ciao") (L "Ciao").
Proof.
  apply (proj2 (CompareStringIgnoreCase_one_collation (T := ordinal_collator)
                  (L "ciao") (L "Ciao")));
    repeat constructor; discriminate.
Defined.

Lemma CompareStringIgnoreCase_from_less_witness :
  CompareStringIgnoreCase (T := latin1_collator) (L "GATTO") (L "ciao") =
  CSTR_GREATER_THAN.
Proof.
  apply (CompareStringIgnoreCase_from_less (T := latin1_collator) _ (L "GATTO") (L "ciao")).
Defined.

Lemma StringIgnoreCaseLess_respects_case_witness :
  StringIgnoreCaseLess (T := latin1_collator) (L "ciao") (L "Gatto") =
  StringIgnoreCaseLess (T := latin1_collator) (L "CIAO") (L "gatto").
Proof.
  apply (StringIgnoreCaseLess_respects_case (T := latin1_collator) _
           (L "ciao") (L "CIAO") (L "Gatto") (L "gatto")); vm_compute; reflexivity.
Defined.

Lemma StringIgnoreCaseLess_nul_suffix_equivalent_witness :
  equivb (C := StringIgnoreCaseLess (T := latin1_collator))
    (L "ab" ++ 0 :: L "x") (L "ab" ++ 0 :: L "yz") = true.
Proof.
  apply (StringIgnoreCaseLess_nul_suffix_equivalent (T := latin1_collator) _
           (L "ab") (L "x") (L "yz")).
Defined.

Lemma StringIgnoreCaseLess_failure_is_equivalence_witness :
  equivb (C := StringIgnoreCaseLess (T := λ _ _ _ _, 0)) (L "ciao") (L "gatto") = true.
Proof.
  apply (StringIgnoreCaseLess_failure_is_equivalence (T := λ _ _ _ _, 0)
           (L "ciao") (L "gatto")); reflexivity.
Defined.
