(* ===== verification/StdMap.v ===== *)
(** * StdMap: [std::map<Key, T, Compare>] by its in-order sequence

    The container is a record [map K V C] that holds the sequence of entries
    an iteration from [begin()] to [end()] visits; an iterator is an index
    into it, [size m] being [end()].  The comparison object [C] is an index
    of the type, as in C++: an operation applied to a map compares keys with
    the comparison object of that map's type.  Every operation first calls
    [lower_bound], as the library's tree does, and then looks at the entry
    found there.

    The file is proved against the [StrictWeakOrder] interface of [Ordering]
    only.  It gives, for each operation, its equation on [empty] and on
    [e ::: m] (the structurally recursive reading of the iterator-based
    definition), preservation of the invariant [sorted], and its effect on
    [find]; that construction from an initializer list without equivalent
    keys sorts the list; and, without any law, that the operations depend on
    the keys through the answers of the comparison object only ([rekey]). *)

From S2P Require Import Prelude Ordering.

Module StdMap.

(** The container: the comparison object is a parameter of the type, and the
    operations take it from there. *)
Record map (K V : Type) (C : Compare K) : Type := Map { entries : list (K * V) }.
Arguments Map {K V C} entries.
Arguments entries {K V C} m.

(** [T()]: the value a new mapped object is initialised with. *)
Class DefaultConstructible (V : Type) := value_init : V.
#[global] Hint Mode DefaultConstructible ! : typeclass_instances.

Declare Scope stdmap_scope.
Delimit Scope stdmap_scope with stdmap.
Bind Scope stdmap_scope with map.

Section operations.
Context {K V : Type} {C : Compare K}.
Implicit Types (k : K) (v : V) (e : K * V) (m : map K V C) (i : nat).
Implicit Types (l : list (K * V)).

Definition empty : map K V C := Map [].

Definition size m : nat := length (entries m).

(** Index, in a sequence, of the first entry whose key is not less than [k]. *)
Fixpoint bound k l : nat :=
  match l with
  | [] => 0%nat
  | e :: l' => if less e.1 k then S (bound k l') else 0%nat
  end.

(** Iterator to the first entry whose key is not less than [k]. *)
Definition lower_bound k m : nat := bound k (entries m).

(** The entry whose key is equivalent to [k], if there is one. *)
Definition find k m : option (K * V) :=
  match entries m !! lower_bound k m with
  | Some e => if less k e.1 then None else Some e
  | None => None
  end.

(** Insertion of an entry unless an equivalent key is present; the flag says
    whether the insertion took place. *)
Definition insert e m : map K V C * bool :=
  let i := lower_bound e.1 m in
  match entries m !! i with
  | Some e' =>
      if less e.1 e'.1 then (Map (insert_at i e (entries m)), true) else (m, false)
  | None => (Map (insert_at i e (entries m)), true)
  end.

(** [m[k]]: the mapped value of the entry equivalent to [k], inserted with a
    value-initialised mapped value when absent. *)
Definition subscript {D : DefaultConstructible V} k m : V * map K V C :=
  let i := lower_bound k m in
  match entries m !! i with
  | Some e' =>
      if less k e'.1
      then (value_init, Map (insert_at i (k, value_init) (entries m)))
      else (e'.2, m)
  | None => (value_init, Map (insert_at i (k, value_init) (entries m)))
  end.

(** [erase(k)]: removal of the entry equivalent to [k]; the number removed. *)
Definition erase k m : map K V C * nat :=
  let i := lower_bound k m in
  match entries m !! i with
  | Some e' => if less k e'.1 then (m, 0%nat) else (Map (delete i (entries m)), 1%nat)
  | None => (m, 0%nat)
  end.

(** Construction from an initializer list: the entries are inserted in the
    order they are written. *)
Definition of_initializer_list l : map K V C :=
  foldl (λ m e, (insert e m).1) empty l.

(** No two entries of an initializer list have equivalent keys. *)
Fixpoint distinct l : bool :=
  match l with
  | [] => true
  | e :: l' => forallb (λ x, negb (equivb e.1 x.1)) l' && distinct l'
  end.

(** Iterators are positions in the sequence: [begin()] is the first one,
    [end()] lies one past the last entry. *)
Definition begin m : nat := 0.
Definition end_ m : nat := size m.

(** [*it]; dereferencing [end()] or beyond is undefined. *)
Definition deref i m : option (K * V) := entries m !! i.

(** The loop [for (it = i; it != m.end(); ++it) a = f(a, *it);], with fuel
    for the number of iterations. *)
Fixpoint for_each {A} (fuel : nat) (f : A → K * V → A) (i : nat) m (a : A)
    : option A :=
  if (i =? end_ m)%nat then Some a
  else match fuel with
       | O => None
       | S fuel' =>
           match deref i m with
           | Some e => for_each fuel' f (S i) m (f a e)
           | None => None
           end
       end.

(** The invariant: keys strictly increase along the sequence. *)
Fixpoint increasing l : bool :=
  match l with
  | [] => true
  | e :: l' =>
      match l' with
      | [] => true
      | e' :: _ => less e.1 e'.1 && increasing l'
      end
  end.

Definition sorted m : bool := increasing (entries m).

(** Every key of [m] lies above [k]. *)
Definition above k m : Prop := Forall (λ e, k ≺ e.1) (entries m).

(** The map whose iteration visits [e], then the entries of [m]. *)
Definition push e m : map K V C := Map (e :: entries m).

#[export] Instance map_elem_of : ElemOf (K * V) (map K V C) :=
  λ x m, x ∈ entries m.

End operations.

(** The sequence of [m] with every key replaced by its image under [f], as a
    map under another comparison object. *)
Definition rekey {K1 K2 V : Type} {C1 : Compare K1} {C2 : Compare K2}
    (f : K1 → K2) (m : map K1 V C1) : map K2 V C2 :=
  Map (prod_map f id <$> entries m).

Infix ":::" := push (at level 60, right associativity) : stdmap_scope.
#[global] Open Scope stdmap_scope.

(** ** Equations on a non-empty sequence *)

Section equations.
Context {K V : Type} {C : Compare K} {D : DefaultConstructible V}.
Implicit Types (k : K) (v : V) (e x : K * V) (m : map K V C) (i : nat).
Implicit Types (l : list (K * V)).

(** Maps are built from [empty] by [push]. *)
Lemma map_push_ind (P : map K V C → Prop) :
  P empty → (∀ e m, P m → P (e ::: m)) → ∀ m, P m.
Proof.
  intros H0 HS [l]. induction l as [|e l IH]; [exact H0|]. exact (HS e (Map l) IH).
Qed.

Lemma elem_of_empty x : x ∈ (empty : map K V C) ↔ False.
Proof. apply elem_of_nil. Qed.

Lemma elem_of_push x e m : x ∈ e ::: m ↔ x = e ∨ x ∈ m.
Proof. apply elem_of_cons. Qed.

Lemma size_empty : size (empty : map K V C) = 0%nat.
Proof. done. Qed.

Lemma size_push e m : size (e ::: m) = S (size m).
Proof. done. Qed.

Lemma find_empty k : find k (empty : map K V C) = None.
Proof. done. Qed.

Lemma find_push k e m :
  find k (e ::: m) =
  if less e.1 k then find k m else if less k e.1 then None else Some e.
Proof. unfold find, lower_bound. simpl. by destruct (less e.1 k). Qed.

Lemma insert_empty e : insert e (empty : map K V C) = (e ::: empty, true).
Proof. done. Qed.

Lemma insert_push e e' m :
  insert e (e' ::: m) =
  if less e'.1 e.1 then (e' ::: (insert e m).1, (insert e m).2)
  else if less e.1 e'.1 then (e ::: e' ::: m, true) else (e' ::: m, false).
Proof.
  unfold insert, lower_bound. simpl.
  destruct (less e'.1 e.1); simpl; [|by destruct (less e.1 e'.1)].
  destruct (entries m !! bound e.1 (entries m)) as [e''|]; [|reflexivity].
  destruct (less e.1 e''.1); reflexivity.
Qed.

Lemma subscript_empty k :
  subscript k (empty : map K V C) = (value_init, (k, value_init) ::: empty).
Proof. done. Qed.

Lemma subscript_push k e' m :
  subscript k (e' ::: m) =
  if less e'.1 k then ((subscript k m).1, e' ::: (subscript k m).2)
  else if less k e'.1 then (value_init, (k, value_init) ::: e' ::: m)
  else (e'.2, e' ::: m).
Proof.
  unfold subscript, lower_bound. simpl.
  destruct (less e'.1 k); simpl; [|by destruct (less k e'.1)].
  destruct (entries m !! bound k (entries m)) as [e''|]; [|reflexivity].
  destruct (less k e''.1); reflexivity.
Qed.

Lemma erase_empty k : erase k (empty : map K V C) = (empty, 0%nat).
Proof. done. Qed.

Lemma erase_push k e' m :
  erase k (e' ::: m) =
  if less e'.1 k then (e' ::: (erase k m).1, (erase k m).2)
  else if less k e'.1 then (e' ::: m, 0%nat) else (m, 1%nat).
Proof.
  unfold erase, lower_bound. simpl.
  destruct (less e'.1 k); simpl; [|destruct (less k e'.1); [done|by destruct m]].
  destruct (entries m !! bound k (entries m)) as [e''|]; [|reflexivity].
  destruct (less k e''.1); reflexivity.
Qed.

Lemma lower_bound_push k e m :
  lower_bound k (e ::: m) = if less e.1 k then S (lower_bound k m) else 0%nat.
Proof. done. Qed.

Lemma lower_bound_le k m : (lower_bound k m ≤ size m)%nat.
Proof.
  induction m as [|e m IH] using map_push_ind; [done|].
  rewrite lower_bound_push, size_push. destruct (less e.1 k); lia.
Qed.

(** Every entry in front of the bound is less than the key. *)
Lemma lower_bound_below k m :
  Forall (λ e, e.1 ≺ k) (take (lower_bound k m) (entries m)).
Proof.
  induction m as [|e m IH] using map_push_ind; [constructor|].
  rewrite lower_bound_push. destruct (less e.1 k) eqn:He; simpl; by constructor.
Qed.

(** The entry at the bound is not less than the key. *)
Lemma lower_bound_at k m e :
  entries m !! lower_bound k m = Some e → less e.1 k = false.
Proof.
  induction m as [|e' m IH] using map_push_ind; [done|].
  rewrite lower_bound_push. destruct (less e'.1 k) eqn:He; simpl; [done|].
  by intros [= <-].
Qed.

End equations.

#[export] Hint Rewrite @find_empty @find_push @insert_empty @insert_push
  @subscript_empty @subscript_push @erase_empty @erase_push @size_push
  @lower_bound_push : cimap_rw.

(** Rewrite with the equations of the operations. *)
Ltac push_eqns := autorewrite with cimap_rw.

(** ** The invariant *)

Section invariant.
Context {K V : Type} {C : Compare K} {SWO : StrictWeakOrder C}.
Implicit Types (k : K) (v : V) (e x : K * V) (m : map K V C) (i : nat).

Lemma above_empty k : above k (empty : map K V C).
Proof. constructor. Qed.

Lemma above_push k e m : above k (e ::: m) ↔ k ≺ e.1 ∧ above k m.
Proof. apply Forall_cons_iff. Qed.

Lemma above_elem k m x : above k m → x ∈ m → k ≺ x.1.
Proof. unfold above. rewrite Forall_forall. auto. Qed.

Lemma above_intro k m : (∀ x, x ∈ m → k ≺ x.1) → above k m.
Proof. intros H. by apply Forall_forall. Qed.

Lemma above_less k k' m : k ≺ k' → above k' m → above k m.
Proof. intros Hk Ha. eapply Forall_impl; [done|]. intros e. by apply less_trans. Qed.

Lemma above_not_less k k' m : less k' k = false → above k' m → above k m.
Proof.
  intros Hk Ha. eapply Forall_impl; [done|]. intros e. by apply not_less_less_trans.
Qed.

Lemma sorted_empty : sorted (empty : map K V C) = true.
Proof. done. Qed.

Lemma sorted_push e m : sorted (e ::: m) = true ↔ above e.1 m ∧ sorted m = true.
Proof.
  revert e. induction m as [|e' m IH] using map_push_ind; intros e.
  - split; [split; [constructor|done]|done].
  - change (sorted (e ::: e' ::: m)) with (less e.1 e'.1 && sorted (e' ::: m)).
    rewrite andb_true_iff, above_push. split; [|tauto].
    intros [He Hs]. repeat split; [done| |done].
    apply above_less with e'.1; [done|]. by apply IH.
Qed.

(** The bridge to the Standard Library's predicate. *)
Lemma sorted_StronglySorted m :
  sorted m = true ↔ StronglySorted (λ e e', e.1 ≺ e'.1) (entries m).
Proof.
  induction m as [|e m IH] using map_push_ind; [split; [constructor|done]|].
  rewrite sorted_push, IH. split.
  - intros [? ?]. by constructor.
  - intros Hs. by apply StronglySorted_inv in Hs as [? ?].
Qed.

(** In a sorted sequence no two entries have equivalent keys. *)
Lemma sorted_unique m x y : sorted m = true → x ∈ m → y ∈ m → x.1 ≍ y.1 → x = y.
Proof.
  induction m as [|e m IH] using map_push_ind; [by intros _ ?%elem_of_empty|].
  rewrite sorted_push, !elem_of_push. intros [Ha Hs] [->|Hx] [->|Hy] Heq; auto.
  - apply (above_elem _ _ _ Ha), less_not_keq in Hy. by destruct Hy.
  - apply (above_elem _ _ _ Ha), less_not_keq in Hx. destruct Hx. by symmetry.
Qed.

(** [find] sees keys up to equivalence only. *)
#[export] Instance find_proper : Proper (keq ==> eq ==> eq) (find (V := V) (C := C)).
Proof.
  intros k k' Hk m ? <-. induction m as [|e m IH] using map_push_ind; [done|].
  by rewrite !find_push, IH, (less_keq_eq_l _ _ _ Hk), (less_keq_eq_r _ _ _ Hk).
Qed.

Lemma find_keq k k' m : k ≍ k' → find k m = find k' m.
Proof. intros Hk. by apply find_proper. Qed.

Lemma find_above k m : above k m → find k m = None.
Proof.
  destruct m as [[|e l]]; [done|]. change (Map (e :: l)) with (e ::: Map l : map K V C).
  rewrite above_push, find_push. intros [He _]. by rewrite (less_asym _ _ He), He.
Qed.

(** What [find] returns: the entry of the sequence whose key is equivalent. *)
Lemma find_Some k m x : sorted m = true → find k m = Some x ↔ x ∈ m ∧ x.1 ≍ k.
Proof.
  induction m as [|e m IH] using map_push_ind.
  { rewrite find_empty, elem_of_empty. intros _. split; [done|tauto]. }
  rewrite sorted_push, find_push, elem_of_push. intros [Ha Hs].
  destruct (less_cases e.1 k) as [(He & Hk & _)|[(He & Hk & Heq)|(He & Hk & _)]];
    rewrite He, ?Hk.
  - rewrite (IH Hs). split; [tauto|]. intros [[->|?] Hx]; [|done].
    by apply less_not_keq in He.
  - split; [intros [= <-]; auto|]. intros [[->|Hx] Hxk]; [done|].
    apply (above_elem _ _ _ Ha) in Hx. apply less_not_keq in Hx. destruct Hx.
    transitivity k; [done|by symmetry].
  - split; [done|]. intros [[->|Hx] Hxk].
    + apply less_not_keq in Hk. destruct Hk. by symmetry.
    + apply (above_elem _ _ _ Ha) in Hx.
      rewrite (less_keq_eq_r _ _ _ Hxk) in Hx. congruence.
Qed.

End invariant.

(** ** Effect of each operation *)

Section effects.
Context {K V : Type} {C : Compare K} {SWO : StrictWeakOrder C}.
Context {D : DefaultConstructible V}.
Implicit Types (k q : K) (v : V) (e x : K * V) (m : map K V C) (i : nat).

Lemma find_None k m :
  sorted m = true → find k m = None ↔ ∀ x, x ∈ m → ¬ x.1 ≍ k.
Proof.
  intros Hs. split.
  - intros Hn x Hx Hxk. assert (find k m = Some x) by by apply find_Some.
    congruence.
  - intros Hall. destruct (find k m) as [x|] eqn:Hf; [|done].
    apply find_Some in Hf as [? ?]; [|done]. by destruct (Hall x).
Qed.

Lemma find_elem m x : sorted m = true → x ∈ m → find x.1 m = Some x.
Proof. intros. by apply find_Some. Qed.

Lemma find_key k m x : sorted m = true → find k m = Some x → x.1 ≍ k.
Proof. intros Hs Hf. by apply find_Some in Hf as [_ ?]. Qed.

(** *** [insert] *)

Lemma elem_of_insert x e m :
  x ∈ (insert e m).1 ↔ x ∈ m ∨ (x = e ∧ (insert e m).2 = true).
Proof.
  induction m as [|e' m IH] using map_push_ind.
  - rewrite insert_empty. simpl. rewrite elem_of_push. tauto.
  - rewrite insert_push. repeat case_goal; simpl; rewrite !elem_of_push, ?IH;
      intuition congruence.
Qed.

Lemma insert_flag e m : (insert e m).2 = true ↔ find e.1 m = None.
Proof.
  induction m as [|e' m IH] using map_push_ind; [done|].
  push_eqns. repeat case_goal; simpl; [done|tauto|split; congruence].
Qed.

Lemma insert_size e m :
  size (insert e m).1 = if (insert e m).2 then S (size m) else size m.
Proof.
  induction m as [|e' m IH] using map_push_ind; [done|]. push_eqns.
  destruct (less e'.1 e.1); cbn [fst snd];
    [push_eqns; rewrite IH; by destruct (insert e m).2|].
  by destruct (less e.1 e'.1).
Qed.

Lemma insert_sorted e m : sorted m = true → sorted (insert e m).1 = true.
Proof.
  induction m as [|e' m IH] using map_push_ind; [done|].
  rewrite insert_push, sorted_push. intros [Ha Hs].
  destruct (less_cases e'.1 e.1) as [(H1 & H2 & _)|[(H1 & H2 & _)|(H1 & H2 & _)]];
    rewrite H1, ?H2; cbn [fst snd]; rewrite !sorted_push; repeat split; auto.
  - apply above_intro. intros x [Hx|[-> _]]%elem_of_insert; [|done].
    by apply (above_elem _ _ _ Ha).
  - apply above_push. split; [done|]. by apply above_less with e'.1.
Qed.

Lemma find_insert q e m :
  sorted m = true →
  find q (insert e m).1 =
  match find q m with
  | Some x => Some x
  | None => if equivb q e.1 then Some e else None
  end.
Proof.
  intros Hs. pose proof (insert_sorted e m Hs) as Hs'.
  destruct (find q m) as [x|] eqn:Hf.
  - apply find_Some in Hf as [Hx Hxq]; [|done]. apply find_Some; [done|].
    split; [|done]. apply elem_of_insert. by left.
  - destruct (equivb q e.1) eqn:Hq.
    + apply find_Some; [done|]. split; [|by symmetry].
      apply elem_of_insert. right. split; [done|]. apply insert_flag.
      by rewrite <- (find_keq q e.1 m Hq).
    + apply find_None; [done|]. intros x [Hx|[-> _]]%elem_of_insert Hxq.
      * by apply (proj1 (find_None q m Hs) Hf x).
      * symmetry in Hxq. unfold keq in Hxq. congruence.
Qed.

(** An entry that is found is returned in place, and nothing is inserted. *)
Lemma insert_present e m x : find e.1 m = Some x → insert e m = (m, false).
Proof.
  induction m as [|e' m IH] using map_push_ind; [done|].
  push_eqns. repeat case_goal; try done. intros Hf. by rewrite (IH Hf).
Qed.

(** *** [operator[]] *)

Lemma subscript_map k m : (subscript k m).2 = (insert (k, value_init) m).1.
Proof.
  induction m as [|e' m IH] using map_push_ind; [done|].
  push_eqns. simpl. repeat case_goal; simpl; congruence.
Qed.

Lemma subscript_value k m :
  (subscript k m).1 = match find k m with Some x => x.2 | None => value_init end.
Proof.
  induction m as [|e' m IH] using map_push_ind; [done|].
  push_eqns. by repeat case_goal.
Qed.

Lemma subscript_present k m x : find k m = Some x → subscript k m = (x.2, m).
Proof.
  intros Hf. rewrite (surjective_pairing (subscript k m)).
  by rewrite subscript_map, subscript_value, (insert_present (k, value_init) m x), Hf.
Qed.

Lemma find_subscript q k m :
  sorted m = true →
  find q (subscript k m).2 =
  match find q m with
  | Some x => Some x
  | None => if equivb q k then Some (k, value_init) else None
  end.
Proof. intros Hs. by rewrite subscript_map, find_insert. Qed.

Lemma subscript_size k m : (size m ≤ size (subscript k m).2 ≤ S (size m))%nat.
Proof. rewrite subscript_map, insert_size. destruct (insert _ m).2; lia. Qed.

(** A subscript never disturbs an entry that is found. *)
Lemma find_subscript_Some q k m x :
  sorted m = true → find q m = Some x → find q (subscript k m).2 = Some x.
Proof. intros Hs Hf. by rewrite find_subscript, Hf. Qed.

Lemma subscript_sorted k m : sorted m = true → sorted (subscript k m).2 = true.
Proof. rewrite subscript_map. apply insert_sorted. Qed.

(** A second subscript with an equivalent key changes nothing and returns
    the value the first one returned. *)
Lemma subscript_idemp k k' m :
  sorted m = true → k ≍ k' →
  subscript k' (subscript k m).2 = ((subscript k m).1, (subscript k m).2).
Proof.
  intros Hs Hk.
  assert (∃ x, find k' (subscript k m).2 = Some x ∧ x.2 = (subscript k m).1)
    as (x & Hx & <-); [|by apply subscript_present].
  rewrite find_subscript, subscript_value, <- (find_keq k k' m Hk) by done.
  destruct (find k m) as [x|]; [by exists x|].
  rewrite (equivb_keq_eq_l k' k k) by by symmetry.
  rewrite (keq_refl k). by eexists.
Qed.

(** *** [erase] *)

Lemma erase_count k m :
  (erase k m).2 = match find k m with Some _ => 1%nat | None => 0%nat end.
Proof.
  induction m as [|e' m IH] using map_push_ind; [done|].
  push_eqns. by repeat case_goal.
Qed.

Lemma erase_size k m : (size (erase k m).1 + (erase k m).2 = size m)%nat.
Proof.
  induction m as [|e' m IH] using map_push_ind; [done|]. push_eqns.
  repeat case_goal; cbn [fst snd]; push_eqns; lia.
Qed.

Lemma elem_of_erase x k m :
  sorted m = true → x ∈ (erase k m).1 ↔ x ∈ m ∧ ¬ x.1 ≍ k.
Proof.
  induction m as [|e' m IH] using map_push_ind.
  { rewrite erase_empty. simpl. rewrite elem_of_empty. tauto. }
  rewrite erase_push, sorted_push. intros [Ha Hs]. specialize (IH Hs).
  assert (x ∈ m → e'.1 ≺ x.1) as Hx by apply (above_elem _ _ _ Ha).
  destruct (less_cases e'.1 k) as [(H1 & H2 & _)|[(H1 & H2 & He)|(H1 & H2 & _)]];
    rewrite H1, ?H2; cbn [fst snd]; rewrite !elem_of_push, ?IH.
  - apply less_not_keq in H1. intuition congruence.
  - assert (x ∈ m → ¬ x.1 ≍ k); [|intuition congruence].
    intros Hm%Hx Hk. apply less_not_keq in Hm. destruct Hm.
    transitivity k; [done|by symmetry].
  - assert (x ∈ m → ¬ x.1 ≍ k) as Hm.
    { intros Hm%Hx Hk. rewrite (less_keq_eq_r _ _ _ Hk) in Hm. congruence. }
    assert (x = e' → ¬ x.1 ≍ k); [|tauto].
    intros -> Hk%keq_sym. by apply less_not_keq in H2.
Qed.

Lemma erase_sorted k m : sorted m = true → sorted (erase k m).1 = true.
Proof.
  induction m as [|e' m IH] using map_push_ind; [done|]. intros Hs.
  pose proof Hs as [Ha Hs']%sorted_push. rewrite erase_push.
  repeat case_goal; cbn [fst snd]; [|done..]. apply sorted_push. split; [|auto].
  apply above_intro. intros x [Hx _]%elem_of_erase; [|done].
  by apply (above_elem _ _ _ Ha).
Qed.

Lemma find_erase q k m :
  sorted m = true →
  find q (erase k m).1 = if equivb q k then None else find q m.
Proof.
  intros Hs. pose proof (erase_sorted k m Hs) as Hs'.
  destruct (equivb q k) eqn:Hqk.
  - apply find_None; [done|]. intros x [_ Hx]%elem_of_erase Hxq; [|done].
    destruct Hx. by transitivity q.
  - destruct (find q m) as [x|] eqn:Hf.
    + apply find_Some in Hf as [Hx Hxq]; [|done]. apply find_Some; [done|].
      split; [|done]. apply elem_of_erase; [done|]. split; [done|]. intros Hxk.
      assert (q ≍ k) as Hq by (by transitivity x.1; [symmetry|]).
      unfold keq in Hq. congruence.
    + apply find_None; [done|]. intros x [Hx _]%elem_of_erase; [|done].
      by apply (proj1 (find_None q m Hs) Hf).
Qed.

End effects.

(** ** Construction, extensionality and the position of the bound *)

Section construction.
Context {K V : Type} {C : Compare K} {SWO : StrictWeakOrder C}.
Implicit Types (k q : K) (e x : K * V) (m : map K V C) (l : list (K * V)).

Lemma foldl_insert_sorted l m :
  sorted m = true → sorted (foldl (λ m e, (insert e m).1) m l) = true.
Proof.
  revert m. induction l as [|e l IH]; intros m Hs; simpl; [done|].
  by apply IH, insert_sorted.
Qed.

Lemma of_initializer_list_sorted l : sorted (of_initializer_list (C := C) l) = true.
Proof. by apply foldl_insert_sorted. Qed.

(** The first entry written for a key wins. *)
Lemma find_foldl_insert q l m :
  sorted m = true →
  find q (foldl (λ m e, (insert e m).1) m l) =
  match find q m with
  | Some x => Some x
  | None => List.find (λ e, equivb q e.1) l
  end.
Proof.
  revert m. induction l as [|e l IH]; intros m Hs; simpl.
  - by destruct (find q m).
  - rewrite IH by by apply insert_sorted. rewrite find_insert by done.
    destruct (find q m); [done|]. by destruct (equivb q e.1).
Qed.

Lemma find_of_initializer_list q l :
  find q (of_initializer_list (C := C) l) = List.find (λ e, equivb q e.1) l.
Proof. unfold of_initializer_list. by rewrite find_foldl_insert. Qed.

Lemma size_foldl_insert_le l m :
  (size (foldl (λ m e, (insert e m).1) m l) ≤ size m + length l)%nat.
Proof.
  revert m. induction l as [|e l IH]; intros m; simpl; [lia|].
  specialize (IH (insert e m).1). rewrite insert_size in IH.
  destruct (insert e m).2; lia.
Qed.

Lemma find_push_head e m : sorted (e ::: m) = true → find e.1 (e ::: m) = Some e.
Proof. intros Hs. apply find_elem; [done|]. apply elem_of_push. by left. Qed.

(** Two sorted sequences on which [find] agrees are the same sequence. *)
Lemma map_ext m1 m2 :
  sorted m1 = true → sorted m2 = true → (∀ q, find q m1 = find q m2) → m1 = m2.
Proof.
  revert m2. induction m1 as [|e1 m1 IH] using map_push_ind;
    intros m2; induction m2 as [|e2 m2 _] using map_push_ind; intros Hs1 Hs2 Hf; [done|..].
  - specialize (Hf e2.1). by rewrite find_push_head, find_empty in Hf.
  - specialize (Hf e1.1). by rewrite find_push_head, find_empty in Hf.
  - pose proof Hs1 as [Ha1 Hs1']%sorted_push. pose proof Hs2 as [Ha2 Hs2']%sorted_push.
    assert (e1 = e2) as <-.
    { pose proof (Hf e1.1) as H1. pose proof (Hf e2.1) as H2.
      rewrite find_push_head in H1 by done. rewrite (find_push_head e2) in H2 by done.
      symmetry in H1. apply find_Some in H1 as [[?|H1]%elem_of_push _]; [done| |done].
      apply find_Some in H2 as [[?|H2]%elem_of_push _]; [done| |done].
      apply (above_elem _ _ _ Ha2) in H1. apply (above_elem _ _ _ Ha1) in H2.
      by rewrite (less_asym _ _ H1) in H2. }
    f_equal. apply IH; [done..|]. intros q. specialize (Hf q).
    rewrite !find_push in Hf. destruct (less e1.1 q) eqn:Hq; [done|].
    rewrite !find_above; [done|by apply above_not_less with e1.1..].
Qed.

(** In a sorted sequence the bound is the partition point: nothing at or
    after it is less than the key. *)
Lemma lower_bound_above k m :
  sorted m = true →
  Forall (λ e, less e.1 k = false) (drop (lower_bound k m) (entries m)).
Proof.
  induction m as [|e m IH] using map_push_ind; [constructor|].
  intros [Ha Hs]%sorted_push. rewrite lower_bound_push.
  destruct (less e.1 k) eqn:He; simpl; [auto|]. constructor; [done|].
  eapply Forall_impl; [exact Ha|]. intros x Hx. simpl in Hx.
  destruct (less x.1 k) eqn:Hxk; [|done].
  by rewrite (less_trans _ _ _ Hx Hxk) in He.
Qed.

(** Looking a key up along the iteration finds what [find] finds. *)
Lemma find_entries q m :
  sorted m = true → List.find (λ e, equivb q e.1) (entries m) = find q m.
Proof.
  induction m as [|e m IH] using map_push_ind; [done|].
  intros [Ha Hs]%sorted_push. rewrite find_push.
  change (entries (e ::: m)) with (e :: entries m). cbn [List.find].
  destruct (less_cases e.1 q) as [(H1 & H2 & _)|[(H1 & H2 & Hq)|(H1 & H2 & _)]];
    rewrite H1, ?H2.
  - rewrite (proj2 (equivb_false q e.1)) by auto. by apply IH.
  - apply keq_sym in Hq. unfold keq in Hq. by rewrite Hq.
  - rewrite (proj2 (equivb_false q e.1)), IH by auto.
    apply find_above. by apply above_less with e.1.
Qed.

(** A map constructed from the iteration of a sorted map is that map. *)
Lemma of_initializer_list_entries m :
  sorted m = true → of_initializer_list (entries m) = m.
Proof.
  intros Hs. apply map_ext; [apply of_initializer_list_sorted|done|].
  intros q. by rewrite find_of_initializer_list, find_entries.
Qed.

(** Erasing a key that was just inserted restores the map. *)
Lemma erase_insert e m :
  sorted m = true → find e.1 m = None → (erase e.1 (insert e m).1).1 = m.
Proof.
  intros Hs Hf. apply map_ext; [by apply erase_sorted, insert_sorted|done|].
  intros q. rewrite find_erase, find_insert by by try apply insert_sorted.
  destruct (equivb q e.1) eqn:Hq; [by rewrite (find_keq q e.1 m Hq)|].
  by destruct (find q m).
Qed.

End construction.

(** ** Construction as a sort *)

(** When no two keys of an initializer list are equivalent, every entry is
    inserted, and the container is the list sorted by its keys. *)
Section sorting.
Context {K V : Type} {C : Compare K} {SWO : StrictWeakOrder C}.
Implicit Types (k q : K) (e x : K * V) (m : map K V C) (l : list (K * V)).

Lemma distinct_Permutation l l' : l ≡ₚ l' → distinct l = distinct l'.
Proof.
  induction 1 as [|x l l' Hl IH|x y l|l l1 l' _ IH1 _ IH2]; simpl; [done| | |congruence].
  - by rewrite IH, (forallb_Permutation _ l l').
  - rewrite (equivb_sym y.1 x.1). destruct (equivb x.1 y.1); simpl; [done|].
    by destruct (forallb _ l), (forallb _ l).
Qed.

(** An insertion that takes place adds its entry and nothing else. *)
Lemma entries_insert e m : find e.1 m = None → entries (insert e m).1 ≡ₚ e :: entries m.
Proof.
  intros Hf%insert_flag. revert Hf. unfold insert. cbv zeta.
  destruct (entries m !! _) as [e'|]; [destruct (less e.1 e'.1)|]; simpl;
    first [done | intros _; apply insert_at_Permutation].
Qed.

Lemma entries_foldl_insert l m :
  sorted m = true → distinct l = true → Forall (λ x, find x.1 m = None) l →
  entries (foldl (λ m e, (insert e m).1) m l) ≡ₚ entries m ++ l.
Proof.
  revert m. induction l as [|e l IH]; intros m Hs Hd Hn; simpl; [by rewrite app_nil_r|].
  apply andb_true_iff in Hd as [He Hd]. apply Forall_cons_iff in Hn as [Hfe Hn].
  rewrite IH, (entries_insert e m Hfe); [apply Permutation_middle|by apply insert_sorted|done|].
  apply Forall_forall. intros x Hx.
  rewrite find_insert, (proj1 (Forall_forall _ _) Hn x Hx), equivb_sym by done.
  rewrite forallb_forall in He. apply list_elem_of_In, He, negb_true_iff in Hx.
  by rewrite Hx.
Qed.

Lemma entries_of_initializer_list l :
  distinct l = true → entries (of_initializer_list (C := C) l) ≡ₚ l.
Proof.
  intros Hd. unfold of_initializer_list.
  rewrite entries_foldl_insert; [done..|]. by apply Forall_forall.
Qed.

(** A sorted sequence is determined by the entries it holds. *)
Lemma sorted_Permutation m1 m2 :
  sorted m1 = true → sorted m2 = true → entries m1 ≡ₚ entries m2 → m1 = m2.
Proof.
  intros Hs1 Hs2 Hp. apply map_ext; [done..|]. intros q. apply option_eq. intros x.
  rewrite !find_Some by done. unfold elem_of, map_elem_of. by rewrite Hp.
Qed.

(** The order in which the entries are written leaves no trace. *)
Lemma of_initializer_list_Permutation l l' :
  distinct l = true → l ≡ₚ l' →
  of_initializer_list (C := C) l' = of_initializer_list l.
Proof.
  intros Hd Hp. apply sorted_Permutation; [apply of_initializer_list_sorted..|].
  rewrite !entries_of_initializer_list; [done..|]. by rewrite <- (distinct_Permutation l l').
Qed.

End sorting.

(** ** Maps under two comparison objects *)

(** The operations consult the keys through the comparison object only.
    When a function [f] on keys turns the answers of one comparison object
    into those of another, each operation on the images of the keys does what
    the operation on the keys does: the two containers are one sequence up to
    [f]. *)
Section embedding.
Context {K1 K2 V : Type} {C1 : Compare K1} {C2 : Compare K2}.
Context {D : DefaultConstructible V}.
Context (f : K1 → K2) (Hf : ∀ a b, less (f a) (f b) = less a b).
Implicit Types (k : K1) (e x : K1 * V) (m : map K1 V C1) (l : list (K1 * V)).

Lemma rekey_empty : rekey f (empty : map K1 V C1) = (empty : map K2 V C2).
Proof. done. Qed.

Lemma rekey_push e m : rekey (C2 := C2) f (e ::: m) = prod_map f id e ::: rekey f m.
Proof. done. Qed.

Lemma insert_rekey e m :
  insert (prod_map f id e) (rekey (C2 := C2) f m) =
  prod_map (rekey f) id (insert e m).
Proof.
  induction m as [|e' m IH] using map_push_ind; [done|].
  rewrite rekey_push, !insert_push, IH. simpl. rewrite !Hf. by repeat case_goal.
Qed.

Lemma subscript_rekey k m :
  subscript (f k) (rekey (C2 := C2) f m) = prod_map id (rekey f) (subscript k m).
Proof.
  induction m as [|e' m IH] using map_push_ind; [done|].
  rewrite rekey_push, !subscript_push, IH. simpl. rewrite !Hf. by repeat case_goal.
Qed.

Lemma of_initializer_list_rekey l :
  of_initializer_list (C := C2) (prod_map f id <$> l) = rekey f (of_initializer_list l).
Proof.
  unfold of_initializer_list. rewrite <- rekey_empty. generalize (empty : map K1 V C1).
  induction l as [|e l IH]; intros m; simpl; [done|].
  rewrite insert_rekey. apply IH.
Qed.

End embedding.

(** With the identity on keys, the sequence is read as it is. *)
Lemma rekey_id {K V : Type} {C1 C2 : Compare K} (m : map K V C1) :
  rekey (C2 := C2) id m = Map (entries m).
Proof.
  unfold rekey. f_equal. rewrite <- (list_fmap_id (entries m)) at 2.
  apply list_fmap_ext. by intros _ [k v] _.
Qed.

(** ** Iteration *)

Section iteration.
Context {K V A : Type} {C : Compare K}.
Implicit Types (m : map K V C) (f : A → K * V → A) (a : A) (i fuel : nat).

(** With fuel for the entries that remain, the loop ends and has folded
    them in order. *)
Lemma for_each_drop fuel f i m a :
  (size m - i ≤ fuel)%nat → (i ≤ size m)%nat →
  for_each fuel f i m a = Some (foldl f a (drop i (entries m))).
Proof.
  unfold size. revert i a. induction fuel as [|fuel IH]; intros i a Hf Hi.
  - assert (i = length (entries m)) as -> by lia. simpl.
    unfold end_, size. by rewrite Nat.eqb_refl, drop_all.
  - simpl. unfold end_, deref, size. destruct (Nat.eqb_spec i (length (entries m))) as [->|Hn].
    { by rewrite drop_all. }
    destruct (lookup_lt_is_Some_2 (entries m) i) as [e He]; [lia|].
    rewrite He, (drop_S _ _ _ He). simpl. apply IH; lia.
Qed.

(** Without enough fuel the loop is cut before [end()]. *)
Lemma for_each_None fuel f i m a :
  (i + fuel < size m)%nat → for_each fuel f i m a = None.
Proof.
  unfold size. revert i a. induction fuel as [|fuel IH]; intros i a Hf; simpl;
    unfold end_, deref, size; destruct (Nat.eqb_spec i (length (entries m))); try lia;
    [done|].
  destruct (entries m !! i); [|done]. apply IH. lia.
Qed.

End iteration.

End StdMap.

#[export] Hint Resolve StdMap.sorted_empty StdMap.above_empty StdMap.insert_sorted
  StdMap.subscript_sorted StdMap.erase_sorted StdMap.of_initializer_list_sorted
  StdMap.foldl_insert_sorted : cimap.
