(* ===== verification/MapSpec.v ===== *)
(** * MapSpec: what the ordered map promises, and that [StdMap] keeps it

    The abstract view of the container is a partial function from keys to
    stored entries that cannot tell equivalent keys apart ([valid]).  Its
    operations say what a client observes: [insert] keeps an entry already
    present, [get_or_create] returns the present value or creates the default
    one, [erase] forgets a whole equivalence class.

    [refines m f] relates a sequence of entries to an abstract map: the
    sequence is sorted and [StdMap.find] computes [f].  Every operation of
    [StdMap] is simulated by its abstract counterpart ([refines_*]), hence so
    is every sequence of calls ([refines_execs]); a sorted sequence is
    determined by the abstract map it refines ([refines_unique]). *)

From S2P Require Import Prelude Ordering StdMap.

Module MapSpec.

Section spec.
Context {K V : Type} {C : Compare K} {D : StdMap.DefaultConstructible V}.

Definition t : Type := K → option (K * V).

Definition empty : t := λ _, None.

Definition find (q : K) (f : t) : option (K * V) := f q.

Definition insert (e : K * V) (f : t) : t * bool :=
  (λ q, match f q with
        | Some x => Some x
        | None => if equivb q e.1 then Some e else None
        end,
   match f e.1 with Some _ => false | None => true end).

Definition get_or_create (k : K) (f : t) : V * t :=
  (match f k with Some x => x.2 | None => StdMap.value_init end,
   (insert (k, StdMap.value_init) f).1).

Definition erase (k : K) (f : t) : t * nat :=
  (λ q, if equivb q k then None else f q,
   match f k with Some _ => 1%nat | None => 0%nat end).

Definition of_list (l : list (K * V)) : t :=
  λ q, List.find (λ e, equivb q e.1) l.

(** An abstract map answers equivalent keys alike, with an entry whose key
    is equivalent to the one asked for. *)
Record valid (f : t) : Prop := {
  valid_proper q q' : q ≍ q' → f q = f q';
  valid_key q x : f q = Some x → x.1 ≍ q;
}.

End spec.

(** The calls a client can make, and what each returns. *)
Inductive call (K V : Type) : Type :=
| Find (k : K)
| Insert (e : K * V)
| Subscript (k : K)
| Erase (k : K).
Arguments Find {K V} k.
Arguments Insert {K V} e.
Arguments Subscript {K V} k.
Arguments Erase {K V} k.

Inductive answer (K V : Type) : Type :=
| Found (o : option (K * V))
| Inserted (b : bool)
| Value (v : V)
| Erased (n : nat).
Arguments Found {K V} o.
Arguments Inserted {K V} b.
Arguments Value {K V} v.
Arguments Erased {K V} n.

Section machines.
Context {K V : Type} {C : Compare K} {D : StdMap.DefaultConstructible V}.

(** One call on the abstract map. *)
Definition step (c : call K V) (f : t) : answer K V * t :=
  match c with
  | Find k => (Found (find k f), f)
  | Insert e => (Inserted (insert e f).2, (insert e f).1)
  | Subscript k => (Value (get_or_create k f).1, (get_or_create k f).2)
  | Erase k => (Erased (erase k f).2, (erase k f).1)
  end.

(** One call on the container. *)
Definition exec (c : call K V) (m : StdMap.map K V C) : answer K V * StdMap.map K V C :=
  match c with
  | Find k => (Found (StdMap.find k m), m)
  | Insert e => (Inserted (StdMap.insert e m).2, (StdMap.insert e m).1)
  | Subscript k => (Value (StdMap.subscript k m).1, (StdMap.subscript k m).2)
  | Erase k => (Erased (StdMap.erase k m).2, (StdMap.erase k m).1)
  end.

(** A sequence of calls, with the answers in order. *)
Fixpoint steps (cs : list (call K V)) (f : t) : list (answer K V) * t :=
  match cs with
  | [] => ([], f)
  | c :: cs' =>
      let r := step c f in
      let rs := steps cs' r.2 in
      (r.1 :: rs.1, rs.2)
  end.

Fixpoint execs (cs : list (call K V)) (m : StdMap.map K V C)
    : list (answer K V) * StdMap.map K V C :=
  match cs with
  | [] => ([], m)
  | c :: cs' =>
      let r := exec c m in
      let rs := execs cs' r.2 in
      (r.1 :: rs.1, rs.2)
  end.

(** The simulation relation. *)
Definition refines (m : StdMap.map K V C) (f : t) : Prop :=
  StdMap.sorted m = true ∧ ∀ q, StdMap.find q m = f q.

End machines.

Section refinement.
Context {K V : Type} {C : Compare K} {SWO : StrictWeakOrder C}.
Context {D : StdMap.DefaultConstructible V}.
Implicit Types (k q : K) (e x : K * V) (m : StdMap.map K V C) (f : t (K := K) (V := V)).

Lemma refines_empty : refines (C := C) StdMap.empty (empty (V := V)).
Proof. by split. Qed.

Lemma refines_valid m f : refines m f → valid f.
Proof.
  intros [Hs Hf]. split.
  - intros q q' Hq. rewrite <- !Hf. by apply StdMap.find_proper.
  - intros q x. rewrite <- Hf. by apply StdMap.find_key.
Qed.

Lemma refines_find k m f : refines m f → StdMap.find k m = find k f.
Proof. intros [_ Hf]. apply Hf. Qed.

Lemma refines_insert e m f :
  refines m f →
  refines (StdMap.insert e m).1 (insert e f).1 ∧
  (StdMap.insert e m).2 = (insert e f).2.
Proof.
  intros [Hs Hf]. repeat split.
  - auto with cimap.
  - intros q. simpl. by rewrite StdMap.find_insert, Hf.
  - simpl. rewrite <- Hf. pose proof (StdMap.insert_flag e m) as Hfl.
    destruct (StdMap.find e.1 m); destruct (StdMap.insert e m).2; intuition congruence.
Qed.

Lemma refines_subscript k m f :
  refines m f →
  refines (StdMap.subscript k m).2 (get_or_create k f).2 ∧
  (StdMap.subscript k m).1 = (get_or_create k f).1.
Proof.
  intros Hr. rewrite StdMap.subscript_map, StdMap.subscript_value. split.
  - by apply refines_insert.
  - simpl. by rewrite (refines_find k m f Hr).
Qed.

Lemma refines_erase k m f :
  refines m f →
  refines (StdMap.erase k m).1 (erase k f).1 ∧
  (StdMap.erase k m).2 = (erase k f).2.
Proof.
  intros [Hs Hf]. repeat split.
  - auto with cimap.
  - intros q. simpl. by rewrite StdMap.find_erase, Hf.
  - simpl. by rewrite StdMap.erase_count, Hf.
Qed.

Lemma refines_of_initializer_list (l : list (K * V)) :
  refines (StdMap.of_initializer_list (C := C) l) (of_list l).
Proof.
  split; [auto with cimap|].
  intros q. apply StdMap.find_of_initializer_list.
Qed.

Lemma refines_unique m1 m2 f : refines m1 f → refines m2 f → m1 = m2.
Proof.
  intros [Hs1 Hf1] [Hs2 Hf2]. apply StdMap.map_ext; [done..|].
  intros q. by rewrite Hf1, Hf2.
Qed.

(** One call of the container is simulated by the same call of the spec. *)
Lemma refines_exec (c : call K V) m f :
  refines m f →
  (exec c m).1 = (step c f).1 ∧ refines (exec c m).2 (step c f).2.
Proof.
  intros Hr. destruct c as [k|e|k|k]; simpl.
  - by rewrite (refines_find k m f Hr).
  - destruct (refines_insert e m f Hr) as [? ->]. done.
  - destruct (refines_subscript k m f Hr) as [? ->]. done.
  - destruct (refines_erase k m f Hr) as [? ->]. done.
Qed.

(** Hence so is every sequence of calls. *)
Lemma refines_execs (cs : list (call K V)) m f :
  refines m f →
  (execs cs m).1 = (steps cs f).1 ∧ refines (execs cs m).2 (steps cs f).2.
Proof.
  revert m f. induction cs as [|c cs IH]; intros m f Hr; [done|]. simpl.
  destruct (refines_exec c m f Hr) as [-> Hr'].
  destruct (IH _ _ Hr') as [-> ?]. done.
Qed.

Lemma execs_sorted (cs : list (call K V)) m :
  StdMap.sorted m = true → StdMap.sorted (execs cs m).2 = true.
Proof.
  intros Hs. assert (refines m (λ q, StdMap.find q m)) as Hr by done.
  by destruct (refines_execs cs _ _ Hr) as [_ [? _]].
Qed.

End refinement.

End MapSpec.
