(* ===== verification/CaseMap.v ===== *)
(** * CaseMap: [CaseInsensitiveStringMap]

    The alias template of the source, and what the container promises once
    its comparison object is [StringIgnoreCaseLess]: the statements of
    [StdMap] and [MapSpec], in terms of the three-way result of
    [CompareStringIgnoreCase], for every collation that satisfies
    [CollatorLaws] under the invariant locale and [NORM_IGNORECASE].  The
    witnesses run the statements on [latin1_collator]. *)

From Stdlib Require Import String.
From S2P Require Import Prelude Ordering Collation Comparator StdMap MapSpec.

(** Alias template for maps with case insensitive string keys. *)
Definition CaseInsensitiveStringMap {T : TextCollator} (Value : Type) : Type :=
  StdMap.map wstring Value StringIgnoreCaseLess.

(** [std::wstring()]: the empty string. *)
#[export] Instance wstring_default : StdMap.DefaultConstructible wstring := [].

(** A map as a program builds it: from an initializer list, then by any
    sequence of calls. *)
Definition built {T : TextCollator} {Value : Type}
    {D : StdMap.DefaultConstructible Value}
    (l : list (wstring * Value)) (cs : list (MapSpec.call wstring Value))
    : CaseInsensitiveStringMap Value :=
  (MapSpec.execs cs (StdMap.of_initializer_list l)).2.

Section case_map.
Context {T : TextCollator} {HL : InvariantIgnoreCase T}.
Context {Value : Type} {D : StdMap.DefaultConstructible Value}.
Implicit Types (k q : wstring) (v : Value) (e x y : wstring * Value).
Implicit Types (m : CaseInsensitiveStringMap Value).
Implicit Types (l : list (wstring * Value)) (cs : list (MapSpec.call wstring Value)).

(** C2. Keys that compare equal ignoring case find the same stored entry. *)
Theorem find_ignores_case (m : CaseInsensitiveStringMap Value) k1 k2 :
  CompareStringIgnoreCase k1 k2 = CSTR_EQUAL →
  StdMap.find k1 m = StdMap.find k2 m.
Proof. intros Hk%keq_equal. by apply StdMap.find_proper. Qed.

Lemma built_sorted l cs : StdMap.sorted (built l cs) = true.
Proof. apply MapSpec.execs_sorted. auto with cimap. Qed.

(** C3. Uniqueness: however a map was built, no two of its entries have keys
    that compare equal ignoring case. *)
Theorem built_keys_unique l cs x y :
  x ∈ StdMap.entries (built l cs) → y ∈ StdMap.entries (built l cs) →
  CompareStringIgnoreCase x.1 y.1 = CSTR_EQUAL → x = y.
Proof.
  intros Hx Hy Hk%keq_equal.
  apply (StdMap.sorted_unique (built l cs)); [apply built_sorted|done..].
Qed.

(** The entries of a sorted map, read with the three-way comparison. *)
Lemma sorted_case_ordered m :
  StdMap.sorted m = true →
  StronglySorted (λ e e', CompareStringIgnoreCase e.1 e'.1 = CSTR_LESS_THAN)
    (StdMap.entries m).
Proof.
  intros Hs%StdMap.sorted_StronglySorted.
  induction Hs as [|e es Hs IH Ha]; constructor; [done|].
  eapply Forall_impl; [exact Ha|]. intros e'. apply less_true.
Qed.

(** C9. Ordering: however a map was built, iteration visits keys in strictly
    increasing case-insensitive order. *)
Theorem built_iteration_ordered l cs :
  StronglySorted (λ e e', CompareStringIgnoreCase e.1 e'.1 = CSTR_LESS_THAN)
    (StdMap.entries (built l cs)).
Proof. apply sorted_case_ordered, built_sorted. Qed.

(** C25. The loop over a map, however it was built, ends when it has fuel for
    [size()] iterations; it has then visited every entry once, in strictly
    increasing case-insensitive order of the keys. *)
Theorem iteration_terminates_in_order l cs fuel :
  (StdMap.size (built l cs) ≤ fuel)%nat →
  ∃ es,
    StdMap.for_each fuel (λ acc e, acc ++ [e])
      (StdMap.begin (built l cs)) (built l cs) [] = Some es ∧
    length es = StdMap.size (built l cs) ∧
    StronglySorted (λ e e', CompareStringIgnoreCase e.1 e'.1 = CSTR_LESS_THAN) es.
Proof.
  intros Hf. exists (StdMap.entries (built l cs)).
  split; [|split; [done|apply sorted_case_ordered, built_sorted]].
  rewrite StdMap.for_each_drop by (unfold StdMap.begin; lia).
  by rewrite foldl_snoc.
Qed.

(** C26. Round trip: a map constructed from the entries an iteration of a sorted
    map yields is that map. *)
Theorem rebuild_from_iteration (m : CaseInsensitiveStringMap Value) :
  StdMap.sorted m = true →
  (StdMap.of_initializer_list (StdMap.entries m) : CaseInsensitiveStringMap Value) = m.
Proof. apply StdMap.of_initializer_list_entries. Qed.

(** C8. Idempotence of [operator[]]: a second subscript with a key that differs
    only in case returns the same value and leaves the map, hence its size,
    as the first one left it.  First-seen casing wins: when the first
    subscript created the entry, the case variant finds it under the spelling
    it was created with. *)
Theorem subscript_idempotent (m : CaseInsensitiveStringMap Value) k k' :
  StdMap.sorted m = true → CompareStringIgnoreCase k k' = CSTR_EQUAL →
  StdMap.subscript k' (StdMap.subscript k m).2 =
    ((StdMap.subscript k m).1, (StdMap.subscript k m).2) ∧
  (StdMap.find k m = None →
   StdMap.find k' (StdMap.subscript k m).2 = Some (k, StdMap.value_init)).
Proof.
  intros Hs Hk%keq_equal. split; [by apply StdMap.subscript_idemp|]. intros Hf.
  rewrite StdMap.find_subscript, <- (StdMap.find_keq k k' m Hk), Hf by done.
  by rewrite (equivb_keq_eq_l k' k k), (keq_refl k) by by symmetry.
Qed.

(** C29. [operator[]] is decided by the lookup of any case variant of the key.
    When it finds an entry, the call returns the stored value and leaves the
    map as it is, the spelling of the stored key included.  When it finds
    none, the call returns the value-initialised value of the entry it
    creates under the spelling it was given; the case variant then finds
    that entry, and the map has grown by one. *)
Theorem subscript_ignores_case (m : CaseInsensitiveStringMap Value) k k' :
  StdMap.sorted m = true → CompareStringIgnoreCase k' k = CSTR_EQUAL →
  match StdMap.find k' m with
  | Some x => StdMap.subscript k m = (x.2, m)
  | None =>
      (StdMap.subscript k m).1 = StdMap.value_init ∧
      StdMap.find k' (StdMap.subscript k m).2 = Some (k, StdMap.value_init) ∧
      StdMap.size (StdMap.subscript k m).2 = S (StdMap.size m)
  end.
Proof.
  intros Hs Hk%keq_equal. rewrite (StdMap.find_keq k' k m Hk).
  destruct (StdMap.find k m) as [x|] eqn:Hf; [by apply StdMap.subscript_present|].
  pose proof (proj2 (StdMap.insert_flag (k, StdMap.value_init) m) Hf) as Hi.
  rewrite StdMap.subscript_value, StdMap.find_subscript, StdMap.subscript_map by done.
  rewrite StdMap.insert_size, (StdMap.find_keq k' k m Hk), Hf, Hi.
  unfold keq in Hk. by rewrite Hk.
Qed.

(** C30. [insert] is decided by the lookup of any case variant of the key.  When
    it finds an entry, the map is unchanged, value and stored spelling
    included, and the call reports that nothing was inserted.  When it finds
    none, the entry is inserted, is found under the case variant, and the
    map has grown by one. *)
Theorem insert_ignores_case (m : CaseInsensitiveStringMap Value) e k' :
  StdMap.sorted m = true → CompareStringIgnoreCase k' e.1 = CSTR_EQUAL →
  match StdMap.find k' m with
  | Some x => StdMap.insert e m = (m, false)
  | None =>
      StdMap.find k' (StdMap.insert e m).1 = Some e ∧
      (StdMap.insert e m).2 = true ∧
      StdMap.size (StdMap.insert e m).1 = S (StdMap.size m)
  end.
Proof.
  intros Hs Hk%keq_equal. rewrite (StdMap.find_keq k' e.1 m Hk).
  destruct (StdMap.find e.1 m) as [x|] eqn:Hf; [by apply StdMap.insert_present with x|].
  pose proof (proj2 (StdMap.insert_flag e m) Hf) as Hi.
  rewrite StdMap.find_insert, StdMap.insert_size, (StdMap.find_keq k' e.1 m Hk), Hf, Hi by done.
  unfold keq in Hk. by rewrite Hk.
Qed.

(** C31. [erase] removes the entry under every case variant of the key and leaves
    every other key as it was. *)
Theorem erase_ignores_case (m : CaseInsensitiveStringMap Value) k q :
  StdMap.sorted m = true →
  StdMap.find q (StdMap.erase k m).1 =
  if CompareStringIgnoreCase q k =? CSTR_EQUAL then None else StdMap.find q m.
Proof.
  intros Hs. rewrite StdMap.find_erase by done.
  destruct (equivb q k) eqn:Hq.
  - apply keq_equal in Hq. by rewrite Hq.
  - destruct (Z.eqb_spec (CompareStringIgnoreCase q k) CSTR_EQUAL) as [Heq|]; [|done].
    apply keq_equal in Heq. unfold keq in Heq. congruence.
Qed.

(** C27. Bulk construction: of several entries whose keys differ only in case
    the first one written is kept. *)
Theorem initializer_list_first_wins l q :
  StdMap.find q (StdMap.of_initializer_list l : CaseInsensitiveStringMap Value) =
  List.find (λ e, CompareStringIgnoreCase q e.1 =? CSTR_EQUAL) l.
Proof.
  rewrite StdMap.find_of_initializer_list.
  induction l as [|e l IH]; [done|]. simpl. rewrite IH.
  destruct (equivb q e.1) eqn:Hq.
  - apply keq_equal in Hq. by rewrite Hq.
  - destruct (Z.eqb_spec (CompareStringIgnoreCase q e.1) CSTR_EQUAL) as [Heq|]; [|done].
    apply keq_equal in Heq. unfold keq in Heq. congruence.
Qed.

(** C28. Two entries of an initializer list whose keys differ only in case make
    one entry, the first. *)
Theorem initializer_list_merges_case_variants k k' v v' :
  CompareStringIgnoreCase k k' = CSTR_EQUAL →
  (StdMap.of_initializer_list [(k, v); (k', v')] : CaseInsensitiveStringMap Value)
  = StdMap.Map [(k, v)].
Proof.
  intros Hk%keq_equal%keq_iff. destruct Hk as [Hk Hk'].
  unfold StdMap.of_initializer_list. cbn [foldl].
  rewrite StdMap.insert_empty. cbn [fst]. rewrite StdMap.insert_push. cbn [fst snd].
  by rewrite Hk, Hk'.
Qed.

(** C10. Refinement: the answers of any sequence of calls on a map built from an
    initializer list are those of the abstract map [MapSpec]. *)
Theorem calls_refine_spec l cs :
  (MapSpec.execs cs (StdMap.of_initializer_list l : CaseInsensitiveStringMap Value)).1 =
  (MapSpec.steps cs (MapSpec.of_list l)).1.
Proof. apply MapSpec.refines_execs, MapSpec.refines_of_initializer_list. Qed.

(** C32. Construction sorts: when no two keys of an initializer list are equal
    ignoring case, every entry is kept, so that iteration visits exactly the
    entries written; and the order in which they are written leaves no
    trace, any rearrangement of the list constructs the same map. *)
Theorem initializer_list_sorts l l' :
  StdMap.distinct (C := StringIgnoreCaseLess) l = true → l ≡ₚ l' →
  StdMap.entries (StdMap.of_initializer_list l : CaseInsensitiveStringMap Value) ≡ₚ l ∧
  (StdMap.of_initializer_list l' : CaseInsensitiveStringMap Value) =
  StdMap.of_initializer_list l.
Proof.
  intros Hd Hp. split; [by apply StdMap.entries_of_initializer_list|].
  by apply StdMap.of_initializer_list_Permutation.
Qed.

(** C33. [lower_bound] is the partition point of a sorted map: every key before
    it is less than the key searched, and no key from it on is. *)
Theorem lower_bound_partitions (m : CaseInsensitiveStringMap Value) k :
  StdMap.sorted m = true →
  Forall (λ e, CompareStringIgnoreCase e.1 k = CSTR_LESS_THAN)
    (take (StdMap.lower_bound k m) (StdMap.entries m)) ∧
  Forall (λ e, CompareStringIgnoreCase e.1 k ≠ CSTR_LESS_THAN)
    (drop (StdMap.lower_bound k m) (StdMap.entries m)).
Proof.
  intros Hs. split.
  - eapply Forall_impl; [apply StdMap.lower_bound_below|]. intros e. apply less_true.
  - eapply Forall_impl; [by apply StdMap.lower_bound_above|]. intros e. apply less_false.
Qed.

End case_map.

(** ** Witnesses: the statements above on the executable collator *)

Section witnesses.
#[local] Existing Instance latin1_collator.
#[local] Abbreviation dict := (CaseInsensitiveStringMap (T := latin1_collator) wstring).
#[local] Abbreviation two :=
  (StdMap.Map [(L "ciao", L "hi"); (L "gatto", L "cat")] : dict).

Lemma find_ignores_case_witness :
  StdMap.find (L "GATTO") two = StdMap.find (L "gatto") two.
Proof. apply (find_ignores_case two (L "GATTO") (L "gatto")). vm_compute. reflexivity. Defined.

Lemma built_keys_unique_witness :
  (L "ciao", L "hi") = (L "ciao", L "hi").
Proof.
  apply (built_keys_unique [(L "ciao", L "hi"); (L "Ciao", L "hello")]
           [MapSpec.Subscript (L "CIAO"); MapSpec.Insert (L "gatto", L "cat")]
           (L "ciao", L "hi") (L "ciao", L "hi"));
    vm_compute; (reflexivity || by repeat constructor).
Defined.

Lemma built_iteration_ordered_witness :
  StronglySorted (λ e e', CompareStringIgnoreCase e.1 e'.1 = CSTR_LESS_THAN)
    (StdMap.entries
       (built [(L "gatto", L "cat"); (L "Ciao", L "hi"); (L "ciao", L "hello")]
          [MapSpec.Erase (L "GATTO"); MapSpec.Subscript (L "abc")])).
Proof. apply (built_iteration_ordered _ _). Defined.

#[local] Abbreviation three :=
  (built [(L "gatto", L "cat"); (L "Ciao", L "hi"); (L "ciao", L "hello")] [] : dict).

Lemma iteration_terminates_in_order_witness :
  ∃ es,
    StdMap.for_each 2 (λ acc e, acc ++ [e]) (StdMap.begin three) three [] = Some es ∧
    length es = StdMap.size three ∧
    StronglySorted (λ e e', CompareStringIgnoreCase e.1 e'.1 = CSTR_LESS_THAN) es.
Proof.
  apply (iteration_terminates_in_order
           [(L "gatto", L "cat"); (L "Ciao", L "hi"); (L "ciao", L "hello")] [] 2).
  vm_compute. lia.
Defined.

Lemma rebuild_from_iteration_witness :
  (StdMap.of_initializer_list (StdMap.entries two) : dict) = two.
Proof. apply (rebuild_from_iteration two). vm_compute. reflexivity. Defined.

Lemma subscript_idempotent_witness :
  StdMap.subscript (L "PERCHE") (StdMap.subscript (L "perche") two).2 =
    ((StdMap.subscript (L "perche") two).1, (StdMap.subscript (L "perche") two).2) ∧
  (StdMap.find (L "perche") two = None →
   StdMap.find (L "PERCHE") (StdMap.subscript (L "perche") two).2
   = Some (L "perche", StdMap.value_init)).
Proof.
  apply (subscript_idempotent two (L "perche") (L "PERCHE")); vm_compute; reflexivity.
Defined.

Lemma subscript_ignores_case_witness :
  StdMap.subscript (L "GATTO") two = (L "cat", two).
Proof.
  apply (subscript_ignores_case two (L "GATTO") (L "gatto")); vm_compute; reflexivity.
Defined.

Lemma insert_ignores_case_witness :
  StdMap.insert (L "ciao", L "bye") two = (two, false).
Proof.
  apply (insert_ignores_case two (L "ciao", L "bye") (L "CIAO")); vm_compute; reflexivity.
Defined.

Lemma erase_ignores_case_witness :
  StdMap.find (L "ciao") (StdMap.erase (L "CIAO") two).1 = None.
Proof.
  rewrite (erase_ignores_case two (L "CIAO") (L "ciao")) by (vm_compute; reflexivity).
  vm_compute. reflexivity.
Defined.

Lemma initializer_list_first_wins_witness :
  StdMap.find (L "CIAO")
    (StdMap.of_initializer_list (C := StringIgnoreCaseLess)
       [(L "ciao", L "hi"); (L "Ciao", L "hello")])
  = Some (L "ciao", L "hi").
Proof.
  rewrite (initializer_list_first_wins [(L "ciao", L "hi"); (L "Ciao", L "hello")] (L "CIAO")).
  vm_compute. reflexivity.
Defined.

Lemma initializer_list_merges_case_variants_witness :
  (StdMap.of_initializer_list [(L "ciao", L "hi"); (L "Ciao", L "hello")] : dict)
  = StdMap.Map [(L "ciao", L "hi")].
Proof.
  apply (initializer_list_merges_case_variants (L "ciao") (L "Ciao") (L "hi") (L "hello")).
  vm_compute. reflexivity.
Defined.

Lemma calls_refine_spec_witness :
  (MapSpec.execs [MapSpec.Subscript (L "CIAO"); MapSpec.Erase (L "Gatto")]
     (StdMap.of_initializer_list (C := StringIgnoreCaseLess)
        [(L "ciao", L "hi"); (L "gatto", L "cat")])).1 =
  [MapSpec.Value (L "hi"); MapSpec.Erased 1].
Proof.
  rewrite (calls_refine_spec [(L "ciao", L "hi"); (L "gatto", L "cat")]
             [MapSpec.Subscript (L "CIAO"); MapSpec.Erase (L "Gatto")]).
  vm_compute. reflexivity.
Defined.

#[local] Abbreviation written :=
  [(L "perche", L "because"); (L "ciao", L "hi"); (L "gatto", L "cat")].

Lemma initializer_list_sorts_witness :
  StdMap.entries (StdMap.of_initializer_list written : dict) ≡ₚ written ∧
  (StdMap.of_initializer_list (rev written) : dict) = StdMap.of_initializer_list written.
Proof.
  apply (initializer_list_sorts written (rev written));
    [vm_compute; reflexivity|apply Permutation_rev].
Defined.

Lemma lower_bound_partitions_witness :
  Forall (λ e, CompareStringIgnoreCase e.1 (L "DOG") = CSTR_LESS_THAN)
    (take (StdMap.lower_bound (L "DOG") two) (StdMap.entries two)) ∧
  Forall (λ e, CompareStringIgnoreCase e.1 (L "DOG") ≠ CSTR_LESS_THAN)
    (drop (StdMap.lower_bound (L "DOG") two) (StdMap.entries two)).
Proof. apply (lower_bound_partitions two (L "DOG")). vm_compute. reflexivity. Defined.

End witnesses.
