(* ===== verification/CrtDbg.v ===== *)
(** * CrtDbg: the macro [ASSERT] and the debug runtime

    [ASSERT] of the source is [_ASSERTE] of [crtdbg.h].  In a debug build
    [_ASSERTE(expr)] evaluates the expression and reports a false result
    through [_CrtDbgReportW]; what follows depends on what the report
    answers, which is not the program's to decide: the button pressed in the
    dialog, or the report mode.  [CrtReport] is that answer, as a parameter
    of every run.  The reports raised are recorded in the state of the
    program, of which the macro asks no more than [ReportLog].

    [ASSERT_debug] is the macro case by case, and [ASSERT_preserves] the rule
    by which its clients carry an invariant of their state across an
    assertion. *)

From S2P Require Import Prelude.

(** Whether [_DEBUG] is defined when [crtdbg.h] is included. *)
Inductive build : Type := Debug | Release.

(** The debug runtime behind [_ASSERTE], as far as a program depends on it:
    what the report of a failed assertion at a line returns.  [None] is a
    report that does not return because the process is aborted from it;
    [Some 1] asks for a break into the debugger; any other value, [0] after
    the report was written or ignored and [-1] when it could not be written,
    lets the program continue. *)
Class CrtReport := crt_answer : nat → option Z.

(** A program state that records the lines of the reports raised. *)
Class ReportLog (S : Type) := log_report : nat → S → S.
#[global] Hint Mode ReportLog ! : typeclass_instances.

(** Whether the run continues after the report of a line. *)
Definition continues {R : CrtReport} (line : nat) : bool :=
  match crt_answer line with
  | Some r => negb (r =? 1)
  | None => false
  end.

Section macro.
Context {S : Type} {Log : ReportLog S} {R : CrtReport}.

(** The call [_CrtDbgReportW(_CRT_ASSERT, __FILE__, __LINE__, ...)]: the
    report is raised, then the call returns its answer or ends the run. *)
Definition _CrtDbgReportW (line : nat) : prog S nat Z :=
  λ st,
    match crt_answer line with
    | Some r => Returned r (log_report line st)
    | None => Aborted line (log_report line st)
    end.

(** [_ASSERTE(expr)] of [crtdbg.h].  In a debug build it expands to
    [(!!(expr)) || (1 != _CrtDbgReportW(...)) || (_CrtDbgBreak(), 0)]: the
    expression is evaluated, a false result is reported, and the break that
    the answer [1] asks for ends the run at the line.  In a release build it
    expands to nothing. *)
Definition _ASSERTE (b : build) (line : nat) (expr : prog S nat bool)
    : prog S nat unit :=
  match b with
  | Debug =>
      ok ← expr;
      if ok : bool then mret tt
      else r ← _CrtDbgReportW line; if r =? 1 then abort line else mret tt
  | Release => mret tt
  end.

(** [#define ASSERT(expr) _ASSERTE(expr)] *)
Definition ASSERT (b : build) (line : nat) (expr : prog S nat bool)
    : prog S nat unit :=
  _ASSERTE b line expr.

End macro.

(** Three debug runtimes: reports that abort the process, reports that ask
    for a break, and reports that are all ignored. *)
Definition stops : CrtReport := λ _, None.
Definition breaks : CrtReport := λ _, Some 1.
Definition ignores : CrtReport := λ _, Some 0.

(** ** The macro, case by case *)

Section assertions.
Context {S : Type} {Log : ReportLog S} {R : CrtReport}.
Implicit Types (expr : prog S nat bool) (line : nat) (b : build) (st : S).

Lemma ASSERT_release line expr : ASSERT Release line expr = mret tt.
Proof. done. Qed.

(** In a debug build: an expression that holds leaves the state it was
    evaluated to; one that does not is reported, and the run goes on or ends
    at the line; a run that ends in the expression ends there. *)
Lemma ASSERT_debug line expr st :
  ASSERT Debug line expr st =
  match expr st with
  | Returned ok st' =>
      if ok then Returned tt st'
      else if continues line then Returned tt (log_report line st')
      else Aborted line (log_report line st')
  | Aborted e st' => Aborted e st'
  end.
Proof.
  unfold ASSERT, _ASSERTE, _CrtDbgReportW, continues, mbind, prog_bind.
  destruct (expr st) as [[] st'|e st']; [done| |done].
  destruct (crt_answer line) as [r|]; [by destruct (r =? 1)|done].
Qed.

(** A property of the state that reports do not disturb holds after an
    assertion when it holds after its expression, or when the assertion is
    not evaluated. *)
Lemma ASSERT_preserves (P : S → Prop) b line expr st :
  (∀ st', P st' → P (log_report line st')) →
  P st → P (final_state (expr st)) →
  P (final_state (ASSERT b line expr st)).
Proof.
  intros Hlog Hst He. destruct b; [|done]. rewrite ASSERT_debug.
  destruct (expr st) as [[] st'|e st']; simpl in *; [done| |done].
  destruct (continues line); simpl; auto.
Qed.

(** An assertion ends the run only at its own line, in a debug build, by a
    report that does not let it continue. *)
Lemma ASSERT_aborted b line expr st e st' :
  (∀ st1, ∃ ok st2, expr st1 = Returned ok st2) →
  ASSERT b line expr st = Aborted e st' →
  b = Debug ∧ e = line ∧ continues line = false.
Proof.
  intros He. destruct b; [|done]. rewrite ASSERT_debug.
  destruct (He st) as (ok & st2 & ->). destruct ok; [done|].
  destruct (continues line); [done|]. by intros [= <- _].
Qed.

End assertions.

(** An assertion over one state simulates the assertion over another when
    its expression does and reports are logged alike in both. *)
Lemma ASSERT_simulates {S S' : Type} {Log : ReportLog S} {Log' : ReportLog S'}
    {R : CrtReport} (f : S → S') b line
    (expr : prog S nat bool) (expr' : prog S' nat bool) :
  (∀ st, log_report line (f st) = f (log_report line st)) →
  simulates f expr expr' →
  simulates f (ASSERT b line expr) (ASSERT b line expr').
Proof.
  intros Hlog He st. destruct b; [|done]. rewrite !ASSERT_debug, He.
  destruct (expr st) as [[] st'|e st']; simpl; [done| |done].
  rewrite Hlog. by destruct (continues line).
Qed.
