(* ===== verification/Program.v ===== *)
(** * Program: [main]

    [main] in the monad [prog] over [MainState]: what was written to [wcout],
    the local [dictionary], and the lines of the reports that failed
    assertions raised.  A statement [ASSERT(dictionary[k] == v)] is
    [ASSERT b line (subscript_eq k v)], with the macro of [CrtDbg]: in a
    debug build the expression is evaluated, which calls [operator[]] on the
    dictionary and may insert; a false result is reported, and the run ends
    at the line or goes on with the next statement as the debug runtime
    answers.  In a release build the expression is not evaluated.

    The file holds the program, the release build, and the shape of the
    literals.  What holds of [main] for every collation is in [Checks].  The
    examples at the end run the definitions on three collations of the
    development's own; they test the model and state nothing of the
    platform. *)

From Stdlib Require Import String.
From S2P Require Import Prelude Ordering Collation Comparator StdMap MapSpec CaseMap CrtDbg.

(** ** The state of a run *)

(** What [main] acts on: the text written to [wcout], the local
    [dictionary], and the lines of the reports raised by failed
    assertions. *)
Record MainState {T : TextCollator} : Type := {
  wcout : wstring;
  dictionary : CaseInsensitiveStringMap wstring;
  reports : list nat;
}.
Arguments MainState T : clear implicits.

Definition initial {T : TextCollator} : MainState T :=
  {| wcout := []; dictionary := StdMap.empty; reports := [] |}.

(** An assertion of [main]: source line, key used, value expected. *)
Definition assertion : Type := nat * wstring * wstring.

(** A report adds its line to the reports. *)
#[export] Instance MainState_log {T : TextCollator} : ReportLog (MainState T) :=
  λ line st,
    {| wcout := wcout st; dictionary := dictionary st;
       reports := reports st ++ [line] |}.

Section effects.
Context {T : TextCollator}.

(** [wcout << s] *)
Definition wcout_put (s : wstring) : prog (MainState T) nat unit :=
  modify (λ st, {| wcout := wcout st ++ s; dictionary := dictionary st;
                   reports := reports st |}).

(** The expression [dictionary[k] == v]. *)
Definition subscript_eq (k v : wstring) : prog (MainState T) nat bool :=
  λ st,
    let r := StdMap.subscript k (dictionary st) in
    Returned (bool_decide (r.1 = v))
      {| wcout := wcout st; dictionary := r.2; reports := reports st |}.

End effects.

(** ** The literals of [main] *)

Definition banner : wstring :=
  L "*** Testing Map with Case Insensitive String Keys ***" ++ [10; 10].
Definition all_right : wstring := L "All right." ++ [10].

Definition ciao : wstring := L "ciao".
Definition hi : wstring := L "hi".
Definition gatto : wstring := L "gatto".
Definition cat : wstring := L "cat".
Definition perche : wstring := L "perch" ++ [0xE9].
Definition because : wstring := L "because".

Definition Ciao : wstring := L "Ciao".
Definition CIAO : wstring := L "CIAO".
Definition CIaO : wstring := L "CIaO".
Definition GATTO : wstring := L "GATTO".
Definition Gatto : wstring := L "Gatto".
Definition gAtTo : wstring := L "gAtTo".
Definition gatTO : wstring := L "gatTO".
Definition PERche : wstring := L "PERch" ++ [0xE9].
Definition PERCHE : wstring := L "PERCH" ++ [0xC9].
Definition PeRChE : wstring := L "PeRCh" ++ [0xC9].

(** ** [main] *)

(** The dictionary as its initializer list constructs it. *)
Definition dictionary_init {T : TextCollator} : CaseInsensitiveStringMap wstring :=
  StdMap.of_initializer_list
    [ (ciao, hi);
      (gatto, cat);
      (perche, because) ].

Definition construct_dictionary {T : TextCollator} : prog (MainState T) nat unit :=
  modify (λ st, {| wcout := wcout st; dictionary := dictionary_init;
                   reports := reports st |}).

(** [main] has no [return] statement: flowing off its end returns [0]. *)
Definition main {T : TextCollator} {R : CrtReport} (b : build)
    : prog (MainState T) nat Z :=
  wcout_put banner;;

  construct_dictionary;;

  ASSERT b 81 (subscript_eq ciao hi);;
  ASSERT b 82 (subscript_eq Ciao hi);;
  ASSERT b 83 (subscript_eq CIAO hi);;
  ASSERT b 84 (subscript_eq CIaO hi);;

  ASSERT b 86 (subscript_eq gatto cat);;
  ASSERT b 87 (subscript_eq GATTO cat);;
  ASSERT b 88 (subscript_eq Gatto cat);;
  ASSERT b 89 (subscript_eq gAtTo cat);;
  ASSERT b 90 (subscript_eq gatTO cat);;

  ASSERT b 92 (subscript_eq perche because);;
  ASSERT b 93 (subscript_eq PERche because);;
  ASSERT b 94 (subscript_eq PERCHE because);;
  ASSERT b 95 (subscript_eq PeRChE because);;

  wcout_put all_right;;
  mret 0.

(** The pairs (key used, key stored) of the thirteen assertions. *)
Definition lookups : list (wstring * wstring) :=
  [ (ciao, ciao); (Ciao, ciao); (CIAO, ciao); (CIaO, ciao);
    (gatto, gatto); (GATTO, gatto); (Gatto, gatto); (gAtTo, gatto); (gatTO, gatto);
    (perche, perche); (PERche, perche); (PERCHE, perche); (PeRChE, perche) ].

(** What [main] needs of the collation: each key used is equal, ignoring
    case, to the key stored, and the three stored keys are pairwise
    different. *)
Definition folds_lookups (T : TextCollator) : bool :=
  forallb (λ p, CompareStringIgnoreCase p.1 p.2 =? CSTR_EQUAL) lookups &&
  negb (CompareStringIgnoreCase ciao gatto =? CSTR_EQUAL) &&
  negb (CompareStringIgnoreCase ciao perche =? CSTR_EQUAL) &&
  negb (CompareStringIgnoreCase gatto perche =? CSTR_EQUAL).

(** The thirteen assertions: source line, key used, value expected. *)
Definition assertions : list assertion :=
  [ (81, ciao, hi); (82, Ciao, hi); (83, CIAO, hi); (84, CIaO, hi);
    (86, gatto, cat); (87, GATTO, cat); (88, Gatto, cat); (89, gAtTo, cat);
    (90, gatTO, cat);
    (92, perche, because); (93, PERche, because); (94, PERCHE, because);
    (95, PeRChE, because) ]%nat.

(** ** The release build *)

Section release.
Context {T : TextCollator} {R : CrtReport}.

Lemma main_release :
  main Release initial =
  Returned 0 {| wcout := banner ++ all_right; dictionary := dictionary_init;
                reports := [] |}.
Proof. unfold main. by rewrite !ASSERT_release. Qed.

End release.

(** C17. In a release build no assertion is evaluated: whatever the collation,
    [main] returns [0] after writing both messages, the dictionary is never
    subscripted and nothing is reported. *)
Theorem main_release_skips_assertions (T : TextCollator) (R : CrtReport) :
  main Release initial =
  Returned 0 {| wcout := banner ++ all_right; dictionary := dictionary_init;
                reports := [] |}.
Proof. apply main_release. Qed.

(** ** The literals *)

Lemma assertions_nonempty : Forall (λ a : assertion, a.2 ≠ []) assertions.
Proof. by repeat constructor. Qed.

(** The keys of [lookups] are the keys of the assertions, in order. *)
Lemma lookups_assertions : lookups.*1 = (assertions.*1).*2.
Proof. reflexivity. Qed.

(** Every literal of [main] is a string of 16-bit code units without a NUL,
    no key holds a surrogate, and no expected value is empty: the keys are
    compared in full, [main] gives the collation no unpaired surrogate to
    order, and a value-initialised entry is never mistaken for a stored
    one. *)
Lemma main_literals_well_formed :
  Forall (λ a : assertion,
            wstring_ok a.1.2 = true ∧
            Forall (λ c, c ≠ 0 ∧ surrogate c = false) a.1.2 ∧
            wstring_ok a.2 = true ∧ Forall (λ c, c ≠ 0) a.2 ∧ a.2 ≠ [])
    assertions.
Proof. apply (bool_decide_unpack _). vm_compute. reflexivity. Qed.

(** ** The dictionary as constructed *)

Lemma dictionary_init_sorted {T : TextCollator}
    {SWO : StrictWeakOrder (StringIgnoreCaseLess (T := T))} :
  StdMap.sorted dictionary_init = true.
Proof. unfold dictionary_init. auto with cimap. Qed.

#[export] Hint Resolve dictionary_init_sorted : cimap.

(** ** Examples: [main], computed *)

(** In a debug build under the executable collator every assertion of
    [main] holds: whatever the debug runtime would answer, the run raises no
    report, returns [0], has written the banner and "All right.", and leaves
    the dictionary with the three entries it was constructed with, in the
    order of their keys. *)
Example main_debug_all_right (R : CrtReport) :
  main (T := latin1_collator) Debug initial =
  Returned 0
    {| wcout := banner ++ all_right;
       dictionary := StdMap.Map [(ciao, hi); (gatto, cat); (perche, because)];
       reports := [] |}.
Proof. vm_compute. reflexivity. Qed.

(** Two collations that do not fold case, with reports that end the run.
    Under a collation that compares code units the run stops at the
    assertion of line 82 after writing the banner only, and the failed
    lookup has inserted the key [Ciao] with an empty value.  When every call
    of the collation fails, all keys are equivalent: the dictionary is
    constructed with its first entry only, the four lookups of [ciao]
    succeed, and the run stops at line 86 where [gatto] finds "hi". *)
Example main_debug_without_case_folding :
  main (T := ordinal_collator) (R := stops) Debug initial =
  Aborted 82%nat
    {| wcout := banner;
       dictionary :=
         StdMap.Map [(Ciao, []); (ciao, hi); (gatto, cat); (perche, because)];
       reports := [82%nat] |} ∧
  main (T := failing_collator) (R := stops) Debug initial =
  Aborted 86%nat
    {| wcout := banner; dictionary := StdMap.Map [(ciao, hi)];
       reports := [86%nat] |}.
Proof. split; vm_compute; reflexivity. Qed.

(** When every report is ignored, the run under a collation that compares
    code units without folding case raises ten reports, for every assertion
    but those that use a key as it is stored, and still writes "All right."
    and returns [0]; each failed lookup has inserted its key with an empty
    value. *)
Example main_debug_ignored_reports :
  main (T := ordinal_collator) (R := ignores) Debug initial =
  Returned 0
    {| wcout := banner ++ all_right;
       dictionary :=
         StdMap.Map
           [ (CIAO, []); (CIaO, []); (Ciao, []); (GATTO, []); (Gatto, []);
             (PERCHE, []); (PERche, []); (PeRChE, []); (ciao, hi);
             (gAtTo, []); (gatTO, []); (gatto, cat); (perche, because) ];
       reports := [82; 83; 84; 87; 88; 89; 90; 93; 94; 95]%nat |}.
Proof. vm_compute. reflexivity. Qed.
