(* ===== verification/Checks.v ===== *)
(** * Checks: the assertions of [main], read off the dictionary

    [checks] reads a sequence of assertions off the dictionary: an assertion
    whose key is found with the expected value changes nothing, any other
    subscripts its key and is reported, and the run goes on when the report
    lets it.  [check_then_checks] shows that this is what the statements of
    [Program.main] do, for every collation and every debug runtime.  From
    there:

    - when no report lets the run continue, the run stops at the first
      assertion that does not hold ([main_debug_decided]);
    - when the comparison object is a strict weak order, a failed lookup
      does not disturb the assertions that follow ([found_subscript]), so
      the reports are the assertions that do not hold on the dictionary as
      constructed, up to the first report that ends the run
      ([main_debug_ended]);
    - under a sound collation this is [main_debug_reports], and the run
      returns without a report exactly under [folds_lookups]
      ([main_debug_passes_iff]);
    - when every call of the wrapper fails, the dictionary has one entry and
      the assertions from line 86 on are reported
      ([main_debug_collation_unavailable]);
    - every outcome is bounded ([main_outcome_safe],
      [main_leaves_valid_map]). *)

From Stdlib Require Import String.
From S2P Require Import Prelude Ordering Collation Comparator StdMap MapSpec CaseMap.
From S2P Require Import CrtDbg Program.

(** ** The assertions, read off the dictionary *)

(** The reports after which the run continues, and then the first one after
    which it does not. *)
Fixpoint raised {R : CrtReport} (l : list assertion) : list assertion :=
  match l with
  | [] => []
  | a :: l' => a :: (if continues a.1.1 then raised l' else [])
  end.

Section checks.
Context {T : TextCollator}.
Implicit Types (m : CaseInsensitiveStringMap wstring) (a : assertion).

(** Whether the key of [a] is found in [m] with the value that [a]
    expects. *)
Definition found m a : bool :=
  match StdMap.find a.1.2 m with
  | Some x => bool_decide (x.2 = a.2)
  | None => false
  end.

(** The assertions that do not hold on the dictionary as constructed. *)
Definition failing : list assertion :=
  List.filter (λ a, negb (found dictionary_init a)) assertions.

(** The assertions that are evaluated and do not hold, per build. *)
Definition failing_in (b : build) : list assertion :=
  match b with Debug => failing | Release => [] end.

(** The dictionary after the keys of [l] have been subscripted. *)
Definition subscripted (l : list assertion) m : CaseInsensitiveStringMap wstring :=
  foldl (λ m a, (StdMap.subscript a.1.2 m).2) m l.

(** The state after the report of the assertion [a]: its key has been
    subscripted and its line reported. *)
Definition reported a (st : MainState T) : MainState T :=
  {| wcout := wcout st;
     dictionary := (StdMap.subscript a.1.2 (dictionary st)).2;
     reports := reports st ++ [a.1.1] |}.

(** The state in which the first assertion is evaluated. *)
Definition constructed : MainState T :=
  {| wcout := banner; dictionary := dictionary_init; reports := [] |}.

(** A sequence of assertions in a debug build, read off the dictionary: an
    assertion that holds changes nothing, one that does not is reported, and
    the run goes on when the report lets it. *)
Fixpoint checks {R : CrtReport} (l : list assertion) (st : MainState T)
    : outcome (MainState T) nat unit :=
  match l with
  | [] => Returned tt st
  | a :: l' =>
      if found (dictionary st) a then checks l' st
      else if continues a.1.1 then checks l' (reported a st)
      else Aborted a.1.1 (reported a st)
  end.

(** A sequence of assertions followed by the rest of the program. *)
Definition check_then {R : CrtReport} {A : Type} (b : build)
    (l : list assertion) (rest : prog (MainState T) nat A)
    : prog (MainState T) nat A :=
  foldr (λ a r, ASSERT b a.1.1 (subscript_eq a.1.2 a.2);; r) rest l.

(** The end of a run in which the assertions of [l] were reported: stopped
    at the first whose report does not let the run continue, or returned
    after "All right." was written. *)
Definition ended (R : CrtReport) (l : list assertion) : outcome (MainState T) nat Z :=
  let st w := {| wcout := w; dictionary := subscripted l dictionary_init;
                 reports := (l.*1).*1 |} in
  match List.find (λ a, negb (continues a.1.1)) l with
  | Some a => Aborted a.1.1 (st banner)
  | None => Returned 0 (st (banner ++ all_right))
  end.

End checks.

(** ** Running statements *)

Section statements.
Context {T : TextCollator} {R : CrtReport}.
Implicit Types (st : MainState T) (k v : wstring) (line : nat) (b : build).
Implicit Types (a : assertion) (l : list assertion).

(** A lookup of a key that is present reads the stored value and leaves the
    state as it is. *)
Lemma subscript_eq_present k v st x :
  StdMap.find k (dictionary st) = Some x →
  subscript_eq k v st = Returned (bool_decide (x.2 = v)) st.
Proof.
  intros Hf. unfold subscript_eq. rewrite (StdMap.subscript_present k _ x Hf).
  by destruct st.
Qed.

(** One assertion of [main], whatever the collation.  The value expected is
    not the empty string, so the assertion holds only when the key is found,
    and then the subscript has changed nothing. *)
Lemma check_found a st :
  a.2 ≠ [] →
  ASSERT Debug a.1.1 (subscript_eq a.1.2 a.2) st = checks [a] st.
Proof.
  intros Hv. rewrite ASSERT_debug. cbn [checks]. unfold found, reported, subscript_eq.
  cbv zeta. rewrite StdMap.subscript_value.
  destruct (StdMap.find _ _) as [x|] eqn:Hf.
  - rewrite (StdMap.subscript_present _ _ x Hf). cbn [snd].
    destruct (bool_decide _); [by destruct st|done].
  - by rewrite bool_decide_eq_false_2 by (intros Hd; by apply Hv).
Qed.

Lemma checks_cons a l st :
  checks (a :: l) st =
  match checks [a] st with
  | Returned _ st' => checks l st'
  | Aborted line st' => Aborted line st'
  end.
Proof. cbn [checks]. by repeat case_goal. Qed.

(** An assertion of a value that is not empty grows the dictionary by one
    entry at most, and only when it raises a report. *)
Lemma ASSERT_size b line k v st :
  v ≠ [] →
  let st' := final_state (ASSERT b line (subscript_eq k v) st) in
  (StdMap.size (dictionary st') + length (reports st)
   ≤ StdMap.size (dictionary st) + length (reports st'))%nat.
Proof.
  intros Hv. destruct b; [|cbn; lia].
  pose proof (check_found (line, k, v) st Hv) as Hc. cbn [fst snd checks] in Hc.
  pose proof (StdMap.subscript_size k (dictionary st)).
  cbv zeta. rewrite Hc.
  repeat case_goal; cbn [final_state reported dictionary reports fst snd];
    rewrite ?length_app; simpl; lia.
Qed.

(** A sequence of assertions is what [checks] reads off the dictionary. *)
Lemma check_then_checks {A} l (rest : prog (MainState T) nat A) st :
  Forall (λ a, a.2 ≠ []) l →
  check_then Debug l rest st =
  match checks l st with
  | Returned _ st' => rest st'
  | Aborted line st' => Aborted line st'
  end.
Proof.
  intros Hl. revert st. induction Hl as [|a l Hv _ IH]; intros st; [done|].
  rewrite checks_cons. pose proof (check_found a st Hv) as Hc. cbn [check_then foldr].
  destruct (checks [a] st) as [[] st'|line st'].
  - rewrite (prog_bind_returned _ _ _ _ _ Hc). apply IH.
  - by rewrite (prog_bind_aborted _ _ _ _ _ Hc).
Qed.

(** An assertion after which the run goes on has reported nothing, or has
    reported its line and the report let the run continue. *)
Lemma ASSERT_reports b line k v st st' :
  ASSERT b line (subscript_eq k v) st = Returned tt st' →
  reports st' = reports st ∨
  reports st' = reports st ++ [line] ∧ continues line = true.
Proof.
  destruct b; [|intros [= <-]; by left]. rewrite ASSERT_debug. unfold subscript_eq.
  destruct (bool_decide _); [intros [= <-]; by left|].
  destruct (continues line); [|done]. intros [= <-]. by right.
Qed.

(** *** What a sequence of assertions leaves *)

Lemma checks_returned l st st' :
  checks l st = Returned tt st' →
  wcout st' = wcout st ∧
  (Forall (λ line, continues line = true) (reports st) →
   Forall (λ line, continues line = true) (reports st')).
Proof.
  revert st. induction l as [|a l IH]; intros st; cbn [checks]; [by intros [= <-]|].
  destruct (found _ a); [by apply IH|]. destruct (continues a.1.1) eqn:Hc; [|done].
  intros [-> Hr]%IH. split; [done|]. intros H. apply Hr. cbn [reported reports].
  apply Forall_app. by repeat constructor.
Qed.

Lemma checks_aborted l st line st' :
  checks l st = Aborted line st' →
  wcout st' = wcout st ∧ line ∈ (l.*1).*1 ∧ continues line = false ∧
  last (reports st') = Some line.
Proof.
  revert st. induction l as [|a l IH]; intros st; cbn [checks]; [done|].
  assert (∀ st0, checks l st0 = Aborted line st' →
    wcout st' = wcout st0 ∧ line ∈ ((a :: l).*1).*1 ∧ continues line = false ∧
    last (reports st') = Some line) as IH'.
  { intros st0 (? & ? & ? & ?)%IH. repeat split; [done| |done..]. by right. }
  destruct (found _ a); [by apply IH'|].
  destruct (continues a.1.1) eqn:Hc; [intros [-> ?]%IH'; by cbn [reported wcout]|].
  intros [= <- <-]. cbn [reported wcout reports]. rewrite last_snoc.
  repeat split; [|done]. by left.
Qed.

(** When every assertion holds nothing is reported. *)
Lemma checks_all_found l st :
  List.find (λ a, negb (found (dictionary st) a)) l = None →
  checks l st = Returned tt st.
Proof.
  induction l as [|a l IH]; [done|]. cbn [checks List.find].
  by destruct (found _ a).
Qed.

(** With reports that never let the run continue, the run stops at the
    first assertion that does not hold. *)
Lemma checks_stops l st :
  (∀ line, continues line = false) →
  checks l st =
  match List.find (λ a, negb (found (dictionary st) a)) l with
  | Some a => Aborted a.1.1 (reported a st)
  | None => Returned tt st
  end.
Proof.
  intros Hc. induction l as [|a l IH]; [done|]. cbn [checks List.find].
  destruct (found _ a); [done|]. by rewrite Hc.
Qed.

End statements.

(** [main] is its two first statements, the assertions, and the rest. *)
Lemma main_checks {T : TextCollator} {R : CrtReport} b :
  main b =
  (wcout_put banner;; construct_dictionary;;
   check_then b assertions (wcout_put all_right;; mret 0)).
Proof. reflexivity. Qed.

Section runs.
Context {T : TextCollator} {R : CrtReport}.
Implicit Types (st : MainState T) (line : nat) (b : build).

(** A debug run of [main]: the assertions read off the dictionary as
    constructed, then "All right.". *)
Lemma main_debug_from :
  main Debug initial =
  match checks assertions constructed with
  | Returned _ st =>
      Returned 0 {| wcout := wcout st ++ all_right; dictionary := dictionary st;
                    reports := reports st |}
  | Aborted line st => Aborted line st
  end.
Proof.
  rewrite main_checks.
  do 2 (erewrite prog_bind_returned by reflexivity; cbn beta).
  rewrite check_then_checks by apply assertions_nonempty.
  by destruct (checks _ _).
Qed.

(** A run that stops has stopped in a debug build, at an assertion whose
    report did not let it continue, with the banner written. *)
Lemma main_aborted b line st :
  main b initial = Aborted line st →
  b = Debug ∧ wcout st = banner ∧ line ∈ (assertions.*1).*1 ∧
  continues line = false ∧ last (reports st) = Some line.
Proof.
  destruct b; [|by rewrite main_release]. rewrite main_debug_from.
  destruct (checks _ _) as [[] st'|line' st'] eqn:Hc; [done|].
  intros [= <- <-]. by apply checks_aborted in Hc as (? & ? & ? & ?).
Qed.

End runs.

(** ** The assertions when the comparison object is a strict weak order *)

(** What follows needs of the collation only that it makes
    [StringIgnoreCaseLess] a strict weak order, which a sound collation
    does, and so does one whose calls all fail. *)
Section ordered.
Context {T : TextCollator} {SWO : StrictWeakOrder (StringIgnoreCaseLess (T := T))}.
Implicit Types (m : CaseInsensitiveStringMap wstring) (a : assertion).
Implicit Types (l : list assertion) (st : MainState T).

Lemma found_init a :
  found dictionary_init a =
  match List.find (λ e, equivb a.1.2 e.1)
          [(ciao, hi); (gatto, cat); (perche, because)] with
  | Some x => bool_decide (x.2 = a.2)
  | None => false
  end.
Proof. unfold found, dictionary_init. by rewrite StdMap.find_of_initializer_list. Qed.

Lemma found_hi line k : found dictionary_init (line, k, hi) = equivb k ciao.
Proof. rewrite found_init. simpl. by repeat case_goal. Qed.

Lemma found_cat line k :
  found dictionary_init (line, k, cat) = negb (equivb k ciao) && equivb k gatto.
Proof. rewrite found_init. simpl. by repeat case_goal. Qed.

Lemma found_because line k :
  found dictionary_init (line, k, because) =
  negb (equivb k ciao) && negb (equivb k gatto) && equivb k perche.
Proof. rewrite found_init. simpl. by repeat case_goal. Qed.

(** *** Failed lookups do not disturb the assertions that follow *)

(** The entry that a failed lookup inserts has the empty value, which no
    assertion expects: an assertion holds after a subscript exactly when it
    held before. *)
Lemma found_subscript k m a :
  StdMap.sorted m = true → a.2 ≠ [] →
  found (StdMap.subscript k m).2 a = found m a.
Proof.
  intros Hs Ha. unfold found. rewrite StdMap.find_subscript by done.
  destruct (StdMap.find a.1.2 m); [done|]. destruct (equivb _ _); [|done].
  apply bool_decide_eq_false_2. intros Hd. by apply Ha.
Qed.

Lemma filter_found_subscript k m l :
  StdMap.sorted m = true → Forall (λ a, a.2 ≠ []) l →
  List.filter (λ a, negb (found (StdMap.subscript k m).2 a)) l =
  List.filter (λ a, negb (found m a)) l.
Proof.
  intros Hs Hl. apply List.filter_ext_in. intros a Ha%list_elem_of_In.
  rewrite found_subscript; [done..|]. by apply (proj1 (Forall_forall _ _) Hl).
Qed.

Lemma subscripted_sorted l m :
  StdMap.sorted m = true → StdMap.sorted (subscripted l m) = true.
Proof. revert m. induction l as [|a l IH]; intros m Hs; simpl; auto with cimap. Qed.

Lemma subscripted_find_Some l m q x :
  StdMap.sorted m = true → StdMap.find q m = Some x →
  StdMap.find q (subscripted l m) = Some x.
Proof.
  revert m. induction l as [|a l IH]; intros m Hs Hf; simpl; [done|].
  apply IH; [auto with cimap|by apply StdMap.find_subscript_Some].
Qed.

Lemma subscripted_size l m :
  (StdMap.size m ≤ StdMap.size (subscripted l m) ≤ StdMap.size m + length l)%nat.
Proof.
  revert m. induction l as [|a l IH]; intros m; simpl; [lia|].
  pose proof (IH (StdMap.subscript a.1.2 m).2).
  pose proof (StdMap.subscript_size a.1.2 m). lia.
Qed.

Section reports.
Context {R : CrtReport}.

(** The assertions reported are those that do not hold on the dictionary
    the sequence starts from, whatever was inserted in between. *)
Lemma checks_sound l st :
  StdMap.sorted (dictionary st) = true → Forall (λ a, a.2 ≠ []) l →
  checks l st =
  let rs := raised (List.filter (λ a, negb (found (dictionary st) a)) l) in
  let st' := {| wcout := wcout st; dictionary := subscripted rs (dictionary st);
                reports := reports st ++ (rs.*1).*1 |} in
  match List.find (λ a, negb (continues a.1.1)) rs with
  | Some a => Aborted a.1.1 st'
  | None => Returned tt st'
  end.
Proof.
  intros Hs Hl. revert st Hs. cbv zeta.
  induction Hl as [|a l Ha Hl IH]; intros st Hs; cbn [checks List.filter raised].
  { cbn. rewrite app_nil_r. by destruct st. }
  destruct (found (dictionary st) a) eqn:Hf; cbn [negb]; [by apply IH|].
  cbn [raised List.find]. destruct (continues a.1.1) eqn:Hc; cbn [negb].
  - rewrite IH by (by apply StdMap.subscript_sorted). cbn [reported wcout dictionary reports].
    rewrite (filter_found_subscript _ _ _ Hs Hl), <- app_assoc. done.
  - done.
Qed.

(** A debug run of [main]. *)
Lemma main_debug_ended : main Debug initial = ended R (raised failing).
Proof.
  rewrite main_debug_from, checks_sound
    by first [apply dictionary_init_sorted | apply assertions_nonempty].
  unfold ended, failing. cbv zeta. cbn [constructed wcout dictionary reports app].
  by destruct (List.find _ _).
Qed.

(** When every report lets the run continue, every failing assertion is
    reported; otherwise the reports end with one that does not. *)
Lemma raised_continues l :
  forallb (λ a, continues a.1.1) l = true →
  raised l = l ∧ List.find (λ a, negb (continues a.1.1)) l = None.
Proof.
  induction l as [|a l IH]; [done|]. cbn [forallb raised List.find].
  intros [-> [-> ->]%IH]%andb_true_iff. done.
Qed.

Lemma raised_stops l :
  List.find (λ a, negb (continues a.1.1)) (raised l) = None →
  forallb (λ a, continues a.1.1) l = true.
Proof.
  induction l as [|a l IH]; [done|]. cbn [forallb raised List.find].
  destruct (continues a.1.1); [apply IH|done].
Qed.

(** [main] returns exactly when every assertion that it evaluates and that
    does not hold is reported by a report that lets it continue. *)
Lemma main_returns b :
  forallb (λ a, continues a.1.1) (failing_in b) = true →
  main b initial =
  Returned 0
    {| wcout := banner ++ all_right;
       dictionary := subscripted (failing_in b) dictionary_init;
       reports := ((failing_in b).*1).*1 |}.
Proof.
  destruct b; [|intros _; apply main_release]. cbn [failing_in].
  intros [Hr Hf]%raised_continues. by rewrite main_debug_ended, Hr; unfold ended; rewrite Hf.
Qed.

Lemma main_returned b status st :
  main b initial = Returned status st →
  forallb (λ a, continues a.1.1) (failing_in b) = true.
Proof.
  destruct b; [|done]. rewrite main_debug_ended. unfold ended. cbn [failing_in].
  destruct (List.find _ _) eqn:Hf; [done|]. intros _. by apply raised_stops.
Qed.

End reports.
End ordered.

(** ** The assertions as facts on a sound collation *)

Section sound.
Context {T : TextCollator} {HL : InvariantIgnoreCase T} {R : CrtReport}.

(** Every assertion holds on the dictionary as constructed exactly when the
    collation identifies each key used with the key stored and tells the
    stored keys apart. *)
Lemma found_folds_lookups :
  forallb (found dictionary_init) assertions = true ↔ folds_lookups T = true.
Proof.
  unfold folds_lookups. cbn [forallb assertions lookups fst snd].
  rewrite !found_hi, !found_cat, !found_because, <- !equivb_equal.
  split; intros H; bool_split; try done.
  all: first [by rewrite equivb_sym | by eapply equivb_other].
Qed.

(** The two ways in which every assertion passes. *)
Lemma main_passes b :
  b = Release ∨ folds_lookups T = true →
  main b initial =
  Returned 0 {| wcout := banner ++ all_right; dictionary := dictionary_init;
                reports := [] |}.
Proof.
  intros Hb. destruct b; [|apply main_release]. destruct Hb as [|Hf]; [done|].
  apply found_folds_lookups, find_negb_None in Hf.
  by rewrite main_debug_from, checks_all_found.
Qed.

End sound.

#[export] Hint Resolve subscripted_sorted : cimap.

(** ** The assertions when the collation is unavailable *)

(** When every call of the wrapper fails, no key is less than another: the
    comparison object is a strict weak order under which all keys are one
    key. *)
Section unavailable.
Context {T : TextCollator}.
Context (Hfail : ∀ s1 s2 : wstring, CompareStringIgnoreCase s1 s2 = 0).
Implicit Types (k : wstring) (a : assertion) (l : list assertion).

Lemma less_unavailable k k' : less k k' = false.
Proof. by rewrite less_unfold, Hfail. Qed.

#[local] Instance unavailable_swo : StrictWeakOrder (StringIgnoreCaseLess (T := T)).
Proof. split; intros *; unfold keq, equivb; by rewrite ?less_unavailable. Qed.

(** The dictionary is constructed with its first entry only. *)
Lemma dictionary_init_unavailable : dictionary_init = StdMap.Map [(ciao, hi)].
Proof.
  unfold dictionary_init, StdMap.of_initializer_list. cbn [foldl].
  rewrite StdMap.insert_empty. cbn [fst].
  do 2 (rewrite StdMap.insert_push, !less_unavailable; cbn [fst]). done.
Qed.

(** Every key finds that entry. *)
Lemma find_unavailable k : StdMap.find k dictionary_init = Some (ciao, hi).
Proof.
  rewrite dictionary_init_unavailable.
  change (StdMap.Map [(ciao, hi)]) with (StdMap.push (ciao, hi) StdMap.empty).
  by rewrite StdMap.find_push, !less_unavailable.
Qed.

Lemma failing_unavailable : failing = drop 4 assertions.
Proof.
  unfold failing, found.
  rewrite (List.filter_ext _ (λ a, negb (bool_decide (hi = a.2))));
    [reflexivity|]. intros a. by rewrite find_unavailable.
Qed.

(** No lookup inserts anything. *)
Lemma subscripted_unavailable l : subscripted l dictionary_init = dictionary_init.
Proof.
  induction l as [|a l IH]; [done|]. cbn [subscripted foldl].
  by rewrite (StdMap.subscript_present _ _ _ (find_unavailable a.1.2)).
Qed.

Lemma main_debug_unavailable {R : CrtReport} :
  main Debug initial = ended R (raised (drop 4 assertions)).
Proof. by rewrite main_debug_ended, failing_unavailable. Qed.

End unavailable.

(** ** [main] under any collation *)

(** C4. The run of [main] in a debug build, for every collation, when no report
    lets the run continue: it stops at the first assertion, in source order,
    whose key is not found with the expected value in the dictionary as
    constructed, having written the banner, subscripted that key and
    reported that line; when there is none it returns [0], has written both
    messages, has reported nothing and has left the dictionary as
    constructed. *)
Theorem main_debug_decided (T : TextCollator) (R : CrtReport) :
  (∀ line, continues line = false) →
  main Debug initial =
  match List.find (λ a, negb (found dictionary_init a)) assertions with
  | Some a =>
      Aborted a.1.1
        {| wcout := banner;
           dictionary := (StdMap.subscript a.1.2 dictionary_init).2;
           reports := [a.1.1] |}
  | None =>
      Returned 0 {| wcout := banner ++ all_right; dictionary := dictionary_init;
                    reports := [] |}
  end.
Proof.
  intros Hc. rewrite main_debug_from, checks_stops by done.
  by destruct (List.find _ _).
Qed.

(** C14. Whatever the collation, the debug runtime and the build, [main] ends in
    one of two ways.  It returns [0] having written the banner and
    "All right.", and every report it raised let it continue.  Or, in a debug
    build only, it stops at the line of one of its assertions, which is the
    last line reported and whose report did not let it continue, having
    written the banner alone: "All right." is never written after a report
    that ends the run. *)
Theorem main_outcome_safe (T : TextCollator) (R : CrtReport) (b : build) :
  match main b initial with
  | Returned r st =>
      r = 0 ∧ wcout st = banner ++ all_right ∧
      Forall (λ line, continues line = true) (reports st)
  | Aborted line st =>
      b = Debug ∧ line ∈ (assertions.*1).*1 ∧ wcout st = banner ∧
      last (reports st) = Some line ∧ continues line = false
  end.
Proof.
  destruct (main b initial) as [r st|line st] eqn:Hm.
  - destruct b; [|by rewrite main_release in Hm; injection Hm as <- <-].
    rewrite main_debug_from in Hm.
    destruct (checks _ _) as [[] st'|] eqn:Hc; [|done]. injection Hm as <- <-.
    apply checks_returned in Hc as [-> Hr]. repeat split. apply Hr. constructor.
  - by apply main_aborted in Hm as (? & ? & ? & ? & ?).
Qed.

(** ** [main] under a sound collation *)

(** C6. Under a sound collation, whatever the debug runtime answers, the
    reports of a debug run are the lines of the assertions that do not hold
    on the dictionary as constructed, in source order, up to the first whose
    report does not let the run continue; the run stops there with the
    banner written, or returns [0] after "All right." when there is none;
    the dictionary is the one constructed with the keys of the reported
    assertions subscripted. *)
Theorem main_debug_reports (T : TextCollator) (HL : InvariantIgnoreCase T)
    (R : CrtReport) :
  let rs := raised failing in
  let st w := {| wcout := w; dictionary := subscripted rs dictionary_init;
                 reports := (rs.*1).*1 |} in
  main Debug initial =
  match List.find (λ a, negb (continues a.1.1)) rs with
  | Some a => Aborted a.1.1 (st banner)
  | None => Returned 0 (st (banner ++ all_right))
  end.
Proof. apply main_debug_ended. Qed.

(** C5. Under a sound collation, whatever the debug runtime answers, a debug run
    of [main] returns without a report exactly when the collation identifies
    each key used with the key stored and tells the three stored keys apart;
    the dictionary is then left as constructed. *)
Theorem main_debug_passes_iff (T : TextCollator) (HL : InvariantIgnoreCase T)
    (R : CrtReport) :
  main Debug initial =
    Returned 0 {| wcout := banner ++ all_right; dictionary := dictionary_init;
                  reports := [] |}
  ↔ folds_lookups T = true.
Proof.
  split; [|intros Hf; apply main_passes; by right].
  rewrite main_debug_ended, <- found_folds_lookups. unfold ended, failing.
  rewrite <- filter_negb_nil.
  destruct (List.filter _ assertions) as [|a l]; [done|].
  by destruct (List.find _ _).
Qed.

(** C15. Under a sound collation, however [main] ends, the dictionary it leaves
    is a sorted map in which every entry it was constructed with is still
    found, with at most one entry more for each report raised: a failed
    lookup inserts its key and disturbs nothing else. *)
Theorem main_leaves_valid_map (T : TextCollator) (HL : InvariantIgnoreCase T)
    (R : CrtReport) (b : build) :
  let st := final_state (main b initial) in
  StdMap.sorted (dictionary st) = true ∧
  (∀ q x, StdMap.find q dictionary_init = Some x →
          StdMap.find q (dictionary st) = Some x) ∧
  (StdMap.size dictionary_init ≤ StdMap.size (dictionary st)
   ≤ StdMap.size dictionary_init + length (reports st))%nat.
Proof.
  cbv zeta. pose proof dictionary_init_sorted as Hs.
  destruct b; [|rewrite main_release; cbn; by auto with lia].
  rewrite main_debug_ended. unfold ended.
  pose proof (subscripted_size (raised failing) dictionary_init) as Hn.
  destruct (List.find _ _); cbn [final_state dictionary reports];
    rewrite !length_fmap; (split; [auto with cimap|]); (split; [|done]);
    intros q x; by apply subscripted_find_Some.
Qed.

(** ** [main] when the collation is unavailable *)

(** C19. When every call of the wrapper fails, nothing ends the run where the
    failure occurs.  The dictionary is constructed with its first entry
    only, which every key then finds: the four assertions that expect "hi"
    hold, and the nine others, from line 86 on, are reported, in source
    order, up to the first whose report does not let the run continue.  No
    lookup inserts a key.  The run stops at line 86 when its report ends
    the run, and returns [0] after "All right." when every report lets it
    continue. *)
Theorem main_debug_collation_unavailable (T : TextCollator) (R : CrtReport) :
  (∀ s1 s2 : wstring, CompareStringIgnoreCase s1 s2 = 0) →
  let rs := raised (drop 4 assertions) in
  let st w := {| wcout := w; dictionary := StdMap.Map [(ciao, hi)];
                 reports := (rs.*1).*1 |} in
  dictionary_init = StdMap.Map [(ciao, hi)] ∧
  main Debug initial =
  match List.find (λ a, negb (continues a.1.1)) rs with
  | Some a => Aborted a.1.1 (st banner)
  | None => Returned 0 (st (banner ++ all_right))
  end.
Proof.
  intros Hfail. cbv zeta. split; [by apply dictionary_init_unavailable|].
  rewrite (main_debug_unavailable Hfail). unfold ended.
  by rewrite (subscripted_unavailable Hfail), (dictionary_init_unavailable Hfail).
Qed.

(** ** Witnesses *)

Lemma main_debug_collation_unavailable_witness :
  main (T := failing_collator) (R := stops) Debug initial =
  Aborted 86%nat
    {| wcout := banner; dictionary := StdMap.Map [(ciao, hi)];
       reports := [86%nat] |}.
Proof.
  exact (proj2 (main_debug_collation_unavailable failing_collator stops
                  (λ _ _, eq_refl))).
Defined.

Lemma main_debug_decided_witness :
  main (T := latin1_collator) (R := stops) Debug initial =
  Returned 0 {| wcout := banner ++ all_right; dictionary := dictionary_init;
                reports := [] |}.
Proof. exact (main_debug_decided latin1_collator stops (λ _, eq_refl)). Defined.

Lemma main_debug_reports_witness :
  main (T := latin1_collator) (R := breaks) Debug initial =
  Returned 0 {| wcout := banner ++ all_right; dictionary := dictionary_init;
                reports := [] |}.
Proof. exact (main_debug_reports latin1_collator _ breaks). Defined.

Lemma main_leaves_valid_map_witness :
  StdMap.sorted
    (dictionary (final_state (main (T := latin1_collator) (R := stops) Debug initial)))
  = true.
Proof. exact (proj1 (main_leaves_valid_map latin1_collator _ stops Debug)). Defined.

Lemma main_debug_passes_iff_witness :
  main (T := latin1_collator) (R := ignores) Debug initial =
    Returned 0 {| wcout := banner ++ all_right; dictionary := dictionary_init;
                  reports := [] |}
  ↔ folds_lookups latin1_collator = true.
Proof. apply (main_debug_passes_iff latin1_collator _ ignores). Defined.
