(* ===== verification/Steps.v ===== *)
(** * Steps: [main], one statement at a time

    [Program] gives [main] as one computation.  To speak of the states
    between two statements, this file lists the statements of the body in
    source order ([body]) and executes them one at a time, each with the
    definition of [Program] that [main] uses for it ([exec_stmt]); [main] is
    the sequence of these executions followed by the implicit [return 0]
    ([main_body], by computation).

    The rest is the semantics the invariants are stated over, not code of
    the program: a configuration is what remains to be executed with the
    state reached ([Running]), or the end of the run ([Failed] at an
    assertion whose report ended it, [Exited] with a status); [main_step]
    executes the next statement, [main_next] is the step as a function and
    [main_run] iterates it.  The executions of the machine end in the
    outcome of [Program.main] and nowhere else ([main_step_adequate]).

    Invariants are proved by induction on the executions: the dictionary is a
    sorted map at every point of every run, also after a failed lookup has
    inserted its key; what was written is what the statements executed so
    far write; every report raised while the run goes on let it continue.
    [eventually_all_right] says from which configurations the exit after
    "All right." is reached. *)

From Stdlib Require Import String.
From stdpp Require Import relations.
From S2P Require Import Prelude Ordering Collation Comparator StdMap MapSpec CaseMap.
From S2P Require Import CrtDbg Program Checks.

(** ** Statements and configurations *)

(** The three forms of statement in the body of [main]. *)
Inductive stmt : Type :=
| Put (s : wstring)
| Construct
| Assert (line : nat) (k v : wstring).

(** The body of [main], in source order. *)
Definition body : list stmt :=
  [ Put banner;

    Construct;

    Assert 81 ciao hi;
    Assert 82 Ciao hi;
    Assert 83 CIAO hi;
    Assert 84 CIaO hi;

    Assert 86 gatto cat;
    Assert 87 GATTO cat;
    Assert 88 Gatto cat;
    Assert 89 gAtTo cat;
    Assert 90 gatTO cat;

    Assert 92 perche because;
    Assert 93 PERche because;
    Assert 94 PERCHE because;
    Assert 95 PeRChE because;

    Put all_right ].

(** What the statements of [pc] write. *)
Fixpoint output (pc : list stmt) : wstring :=
  match pc with
  | [] => []
  | Put s :: pc' => s ++ output pc'
  | _ :: pc' => output pc'
  end.

Section machine.
Context {T : TextCollator} {R : CrtReport}.

(** One statement: [wcout << s], the declaration of [dictionary], or
    [ASSERT(dictionary[k] == v)]. *)
Definition exec_stmt (b : build) (s : stmt) : prog (MainState T) nat unit :=
  match s with
  | Put s => wcout_put s
  | Construct => construct_dictionary
  | Assert line k v => ASSERT b line (subscript_eq k v)
  end.

(** Statements in sequence, then the implicit [return 0]. *)
Definition exec_all (b : build) (pc : list stmt) : prog (MainState T) nat Z :=
  foldr (λ s r, exec_stmt b s;; r) (mret 0) pc.

Inductive config : Type :=
| Running (pc : list stmt) (st : MainState T)
| Failed (line : nat) (st : MainState T)
| Exited (status : Z) (st : MainState T).

Definition start : config := Running body initial.

Definition state_of (c : config) : MainState T :=
  match c with Running _ st | Failed _ st | Exited _ st => st end.

Definition final (c : config) : bool :=
  match c with Running _ _ => false | _ => true end.

(** The statements that remain to be executed. *)
Definition remaining (c : config) : list stmt :=
  match c with Running pc _ => pc | _ => [] end.

(** Whether a statement is none of the assertions of an empty value, after
    which a key absent from the dictionary would be present without a
    report. *)
Definition expects (s : stmt) : Prop :=
  match s with Assert _ _ v => v ≠ [] | _ => True end.

(** The configuration a run ends in. *)
Definition of_outcome (o : outcome (MainState T) nat Z) : config :=
  match o with
  | Returned status st => Exited status st
  | Aborted line st => Failed line st
  end.

(** The outcome that lies ahead of a configuration. *)
Definition ahead (b : build) (c : config) : outcome (MainState T) nat Z :=
  match c with
  | Running pc st => exec_all b pc st
  | Failed line st => Aborted line st
  | Exited status st => Returned status st
  end.

Inductive main_step (b : build) : relation config :=
| step_stmt s pc st st' :
    exec_stmt b s st = Returned tt st' →
    main_step b (Running (s :: pc) st) (Running pc st')
| step_abort s pc st line st' :
    exec_stmt b s st = Aborted line st' →
    main_step b (Running (s :: pc) st) (Failed line st')
| step_exit st :
    main_step b (Running [] st) (Exited 0 st).

(** The step as a function. *)
Definition main_next (b : build) (c : config) : option config :=
  match c with
  | Running (s :: pc) st =>
      Some (match exec_stmt b s st with
            | Returned _ st' => Running pc st'
            | Aborted line st' => Failed line st'
            end)
  | Running [] st => Some (Exited 0 st)
  | _ => None
  end.

Fixpoint main_run (b : build) (fuel : nat) (c : config) : config :=
  match fuel with
  | O => c
  | S fuel' =>
      match main_next b c with
      | Some c' => main_run b fuel' c'
      | None => c
      end
  end.

End machine.

Arguments config T : clear implicits.

(** ** The machine and [Program.main] *)

Section steps.
Context {T : TextCollator} {R : CrtReport} (b : build).
Implicit Types (c : config T) (st : MainState T) (pc : list stmt) (s : stmt).

Lemma main_body : main b = exec_all (T := T) b body.
Proof. reflexivity. Qed.

Lemma exec_all_cons s pc st :
  exec_all b (s :: pc) st =
  match exec_stmt b s st with
  | Returned _ st' => exec_all b pc st'
  | Aborted line st' => Aborted line st'
  end.
Proof. done. Qed.

Lemma step_next c c' : main_step b c c' ↔ main_next b c = Some c'.
Proof.
  split.
  - intros [s pc st st' H|s pc st line st' H|st]; simpl; by rewrite ?H.
  - destruct c as [[|s pc] st| |]; simpl; intros [= <-]; [constructor| ].
    destruct (exec_stmt b s st) as [[] st'|line st'] eqn:H; by econstructor.
Qed.

(** A step does not change the outcome ahead. *)
Lemma step_ahead c c' : main_step b c c' → ahead b c' = ahead b c.
Proof.
  destruct 1 as [s pc st st' H|s pc st line st' H|st]; cbn [ahead];
    by rewrite ?exec_all_cons, ?H.
Qed.

Lemma rtc_ahead c c' : rtc (main_step b) c c' → ahead b c' = ahead b c.
Proof. induction 1 as [|c c1 c2 H _ IH]; [done|]. by rewrite IH, (step_ahead c c1). Qed.

Lemma nf_final c : nf (main_step b) c ↔ final c = true.
Proof.
  split.
  - intros Hnf. destruct c as [pc st| |]; [|done..]. destruct Hnf.
    destruct (main_next b (Running pc st)) as [c'|] eqn:Hn; [|by destruct pc].
    exists c'. by apply step_next.
  - intros Hf [c' Hs]. by destruct Hs.
Qed.

Lemma final_ahead c : final c = true → of_outcome (ahead b c) = c.
Proof. by destruct c. Qed.

(** Every configuration runs to the outcome ahead of it. *)
Lemma rtc_of_outcome c : rtc (main_step b) c (of_outcome (ahead b c)).
Proof.
  destruct c as [pc st| |]; [|done..]. revert st.
  induction pc as [|s pc IH]; intros st; [apply rtc_once; constructor|].
  cbn [ahead]. rewrite exec_all_cons.
  destruct (exec_stmt b s st) as [[] st'|line st'] eqn:H.
  - eapply rtc_l; [by apply step_stmt|]. apply IH.
  - apply rtc_once. by apply step_abort.
Qed.

Lemma rtc_main_run fuel c : rtc (main_step b) c (main_run b fuel c).
Proof.
  revert c. induction fuel as [|fuel IH]; intros c; simpl; [done|].
  destruct (main_next b c) as [c'|] eqn:Hn; [|done].
  eapply rtc_l; [by apply step_next|]. apply IH.
Qed.

Lemma step_remaining c c' : main_step b c c' → remaining c' `suffix_of` remaining c.
Proof. destruct 1; simpl; [by apply suffix_cons_r|apply suffix_nil..]. Qed.

Lemma rtc_remaining c c' :
  rtc (main_step b) c c' → remaining c' `suffix_of` remaining c.
Proof. induction 1 as [|c c1 c2 H%step_remaining _ IH]; [done|]. by etrans. Qed.

Lemma body_expects : Forall expects body.
Proof. by repeat constructor. Qed.

(** The statement about to be executed is a statement of the body. *)
Lemma reachable_expects s pc st :
  rtc (main_step b) start (Running (s :: pc) st) → expects s.
Proof.
  intros [k Hk]%rtc_remaining. simpl in Hk.
  apply (proj1 (Forall_forall _ _) body_expects). rewrite Hk.
  apply elem_of_app. right. by left.
Qed.

(** Induction on the executions of [main]. *)
Lemma reachable_ind (P : config T → Prop) :
  P start →
  (∀ c c', rtc (main_step b) start c → P c → main_step b c c' → P c') →
  ∀ c, rtc (main_step b) start c → P c.
Proof. intros H0 HS. apply rtc_ind_r; [done|]. intros c c' ? ? ?. by apply (HS c c'). Qed.

(** ** Effect of one statement on the state *)

Lemma exec_stmt_wcout s pc st :
  wcout (final_state (exec_stmt b s st)) ++ output pc = wcout st ++ output (s :: pc).
Proof.
  destruct s as [t| |line k v]; simpl; [by rewrite <- app_assoc|done|].
  by rewrite (ASSERT_preserves (λ st', wcout st' = wcout st)).
Qed.

Lemma exec_stmt_reports s st st' :
  exec_stmt b s st = Returned tt st' →
  Forall (λ line, continues line = true) (reports st) →
  Forall (λ line, continues line = true) (reports st').
Proof.
  destruct s as [t| |line k v]; simpl; [by intros [= <-]..|].
  intros [->|[-> Hc]]%ASSERT_reports; [done|]. intros H.
  apply Forall_app. by repeat constructor.
Qed.

Lemma exec_stmt_sorted {HL : InvariantIgnoreCase T} s st :
  StdMap.sorted (dictionary st) = true →
  StdMap.sorted (dictionary (final_state (exec_stmt b s st))) = true.
Proof.
  intros Hs. destruct s as [t| |line k v]; simpl; [done|auto with cimap|].
  apply (ASSERT_preserves (λ st', StdMap.sorted (dictionary st') = true));
    simpl; auto with cimap.
Qed.

Lemma exec_stmt_size s st :
  expects s →
  (StdMap.size (dictionary st) ≤ StdMap.size dictionary_init + length (reports st))%nat →
  let st' := final_state (exec_stmt b s st) in
  (StdMap.size (dictionary st') ≤ StdMap.size dictionary_init + length (reports st'))%nat.
Proof.
  destruct s as [t| |line k v]; simpl; [done|lia|]. intros Hv Hn.
  pose proof (ASSERT_size b line k v st Hv). simpl in *. lia.
Qed.

(** ** Determinism and adequacy *)

(** A configuration has at most one successor. *)
Lemma main_step_deterministic c c1 c2 :
  main_step b c c1 → main_step b c c2 → c1 = c2.
Proof. rewrite !step_next. congruence. Qed.

(** The executions of the machine end in the outcome of [Program.main], and
    nowhere else. *)
Lemma main_step_adequate c :
  rtc (main_step b) start c ∧ nf (main_step b) c ↔ c = of_outcome (main b initial).
Proof.
  rewrite nf_final, main_body. split.
  - intros [Hr Hf]. by rewrite <- (final_ahead c Hf), (rtc_ahead _ _ Hr).
  - intros ->. split; [apply (rtc_of_outcome start)|].
    by destruct (exec_all b body initial).
Qed.

(** ** Invariants of the executions *)

(** C21. What has been written and reported, at every point of every run.
    What was written, followed by what the remaining statements write, is
    the banner and "All right.".  While the run goes on, and when it has
    exited, every report raised so far let it continue.  A run that stopped
    at an assertion has written the banner only, and the line it stopped at
    is the last one reported, by a report that did not let it continue. *)
Theorem reachable_output c :
  rtc (main_step b) start c →
  match c with
  | Running pc st =>
      wcout st ++ output pc = banner ++ all_right ∧
      Forall (λ line, continues line = true) (reports st)
  | Failed line st =>
      wcout st = banner ∧ last (reports st) = Some line ∧ continues line = false
  | Exited _ st =>
      wcout st = banner ++ all_right ∧
      Forall (λ line, continues line = true) (reports st)
  end.
Proof.
  revert c. apply reachable_ind; [by split|]. intros c c' Hr IH Hs.
  destruct Hs as [s pc st st' H|s pc st line st' H|st].
  - destruct IH as [<- IH]. split; [|by apply (exec_stmt_reports s st)].
    by rewrite <- exec_stmt_wcout, H.
  - apply rtc_ahead in Hr. cbn [ahead start] in Hr.
    rewrite exec_all_cons, H, <- main_body in Hr. symmetry in Hr.
    by apply main_aborted in Hr as (_ & ? & _ & ? & ?).
  - destruct IH as [<- IH]. by rewrite app_nil_r.
Qed.

(** C13. Under a sound collation the dictionary is a sorted map at every point of
    every run: before it is constructed, between two assertions, and after a
    failed lookup has inserted its key; and it has at most one entry more
    than it was constructed with for each report raised so far. *)
Theorem reachable_sorted (HL : InvariantIgnoreCase T) c :
  rtc (main_step b) start c →
  StdMap.sorted (dictionary (state_of c)) = true ∧
  (StdMap.size (dictionary (state_of c))
   ≤ StdMap.size dictionary_init + length (reports (state_of c)))%nat.
Proof.
  revert c. apply reachable_ind; [split; [done|apply Nat.le_0_l]|].
  intros c c' Hr [IHs IHn] Hs.
  destruct Hs as [s pc st st' H|s pc st line st' H|st]; [..|done].
  all: pose proof (exec_stmt_sorted s st IHs) as Hs.
  all: pose proof (exec_stmt_size s st (reachable_expects _ _ _ Hr) IHn) as Hn.
  all: by rewrite H in Hs, Hn.
Qed.

(** C16. Under a sound collation, every execution of [main], from wherever it
    stands, can be continued to the exit with status [0] after "All right."
    is written exactly when every assertion that the build evaluates and that
    does not hold on the dictionary as constructed is reported by a report
    that lets the run continue: always in a release build, and in a debug
    build when the collation folds the keys of the assertions or the reports
    are ignored.  The machine being deterministic, the execution then does
    exit so.  The dictionary at the exit has the keys of
    those assertions subscripted, and their lines are the reports. *)
Theorem eventually_all_right (HL : InvariantIgnoreCase T) c :
  rtc (main_step b) start c →
  forallb (λ a, continues a.1.1) (failing_in b) = true ↔
  rtc (main_step b) c
    (Exited 0 {| wcout := banner ++ all_right;
                 dictionary := subscripted (failing_in b) dictionary_init;
                 reports := ((failing_in b).*1).*1 |}).
Proof.
  intros Hr. split.
  - intros Hb. pose proof (rtc_of_outcome c) as Hc.
    rewrite (rtc_ahead _ _ Hr) in Hc. cbn [ahead start] in Hc.
    by rewrite <- main_body, (main_returns b Hb) in Hc.
  - intros Hc. pose proof (rtc_ahead _ _ (transitivity Hr Hc)) as Ha.
    cbn [ahead start] in Ha. rewrite <- main_body in Ha. symmetry in Ha.
    by apply main_returned in Ha.
Qed.

End steps.

(** ** Witnesses *)

Section witnesses.
#[local] Existing Instance latin1_collator.
#[local] Existing Instance stops.

Lemma reachable_output_witness :
  wcout (state_of (main_run Debug 5 start)) ++ output (drop 5 body)
  = banner ++ all_right.
Proof.
  pose proof (reachable_output Debug (main_run Debug 5 start) (rtc_main_run _ _ _)) as H.
  vm_compute in H. vm_compute. exact (proj1 H).
Defined.

Lemma reachable_sorted_witness :
  StdMap.sorted (dictionary (state_of (main_run Debug 5 start))) = true.
Proof.
  apply (proj1 (reachable_sorted Debug _ (main_run Debug 5 start) (rtc_main_run _ _ _))).
Defined.

End witnesses.

(** Ten reports, all ignored, under a collation that does not fold case. *)
Section ignored.
#[local] Existing Instance ordinal_collator.
#[local] Existing Instance ignores.

Lemma eventually_all_right_witness :
  rtc (main_step Debug) (main_run Debug 5 start)
    (Exited 0 {| wcout := banner ++ all_right;
                 dictionary := subscripted (failing_in Debug) dictionary_init;
                 reports := ((failing_in Debug).*1).*1 |}).
Proof.
  apply (proj1 (eventually_all_right Debug _ (main_run Debug 5 start) (rtc_main_run _ _ _))).
  vm_compute. reflexivity.
Defined.

End ignored.
