(* ===== verification/Locale.v ===== *)
(** * Locale: what [main] consults of the platform's collation

    [CompareStringIgnoreCase] names one locale and one flag word.  Two
    platforms whose collations agree there ([agree]), whatever they do for
    other locales or flags, give the comparison object the same answers, so
    the container holds the same sequence under both and [main] runs alike:
    the program does not depend on the locale of the user or of the system.

    The proof relates the two runs statement by statement: [retype] reads a
    state of the run on one platform as a state of the run on the other, and
    each statement on one simulates the statement on the other
    ([Prelude.simulates]). *)

From S2P Require Import Prelude Ordering Collation Comparator StdMap MapSpec CaseMap.
From S2P Require Import CrtDbg Program.

(** Two collations that order alike under the invariant locale with
    [NORM_IGNORECASE]. *)
Definition agree (T1 T2 : TextCollator) : Prop :=
  ∀ a b,
    collate (TextCollator := T1) LOCALE_NAME_INVARIANT NORM_IGNORECASE a b =
    collate (TextCollator := T2) LOCALE_NAME_INVARIANT NORM_IGNORECASE a b.

(** A state of the run under one collation, read under another: the
    dictionary is the same sequence of entries. *)
Definition retype {T1 T2 : TextCollator} (st : MainState T1) : MainState T2 :=
  {| wcout := wcout st;
     dictionary := StdMap.Map (StdMap.entries (dictionary st));
     reports := reports st |}.

#[export] Instance agree_equivalence : Equivalence agree.
Proof.
  split; [by intros T a b|by intros T1 T2 H a b|].
  intros T1 T2 T3 H12 H23 a b. by rewrite H12.
Qed.

(** The wrapper and the comparison object see a collation up to [agree]. *)
#[export] Instance CompareStringIgnoreCase_agree :
  Proper (agree ==> eq ==> eq ==> eq) (@CompareStringIgnoreCase).
Proof. intros T1 T2 HT a ? <- b ? <-. rewrite !CompareStringIgnoreCase_collate. apply HT. Qed.

#[export] Instance StringIgnoreCaseLess_agree :
  Proper (agree ==> eq ==> eq ==> eq) (@StringIgnoreCaseLess).
Proof.
  intros T1 T2 HT a ? <- b ? <-. unfold StringIgnoreCaseLess.
  by rewrite (CompareStringIgnoreCase_agree T1 T2 HT a a eq_refl b b eq_refl).
Qed.

(** A collation that agrees with a sound one is sound. *)
Lemma agree_laws T1 T2 :
  agree T1 T2 → InvariantIgnoreCase T1 → InvariantIgnoreCase T2.
Proof.
  intros HT [H1 H2 H3 H4].
  split; intros *; rewrite <- ?(HT _ _); [apply H1|apply H2|apply H3|apply H4].
Qed.

Section independence.
Context {T1 T2 : TextCollator} (HT : agree T1 T2) {R : CrtReport}.
Implicit Types (st : MainState T1) (k v s : wstring) (b : build).

Lemma less_agree k k' :
  less (Compare := StringIgnoreCaseLess (T := T2)) (id k) (id k') =
  less (Compare := StringIgnoreCaseLess (T := T1)) k k'.
Proof. symmetry. by apply StringIgnoreCaseLess_agree. Qed.

Lemma dictionary_init_agree :
  dictionary_init (T := T2) = StdMap.Map (StdMap.entries (dictionary_init (T := T1))).
Proof.
  rewrite <- StdMap.rekey_id. unfold dictionary_init.
  by rewrite <- (StdMap.of_initializer_list_rekey id less_agree).
Qed.

Lemma subscript_eq_simulates k v :
  simulates retype (subscript_eq (T := T1) k v) (subscript_eq (T := T2) k v).
Proof.
  intros st. unfold subscript_eq, retype. cbn [dictionary wcout reports outcome_map].
  rewrite <- !StdMap.rekey_id.
  by rewrite (StdMap.subscript_rekey id less_agree k (dictionary st)).
Qed.

Lemma statement_simulates b line k v :
  simulates retype (ASSERT b line (subscript_eq (T := T1) k v))
    (ASSERT b line (subscript_eq (T := T2) k v)).
Proof. apply ASSERT_simulates; [done|apply subscript_eq_simulates]. Qed.

Lemma wcout_put_simulates s :
  simulates retype (wcout_put (T := T1) s) (wcout_put (T := T2) s).
Proof. by apply simulates_modify. Qed.

Lemma construct_dictionary_simulates :
  simulates retype (construct_dictionary (T := T1)) (construct_dictionary (T := T2)).
Proof.
  apply simulates_modify. intros st. unfold retype. simpl.
  by rewrite dictionary_init_agree.
Qed.

(** Every statement of [main] under one collation simulates the statement
    under the other, hence so does [main]. *)
Lemma main_simulates b : simulates retype (main (T := T1) b) (main (T := T2) b).
Proof.
  unfold main.
  repeat (apply simulates_bind; [|intros _]);
    auto using wcout_put_simulates, construct_dictionary_simulates,
      statement_simulates, simulates_ret.
Qed.

(** C7. The run of [main] depends on the platform's collation only through its
    answers under the invariant locale with [NORM_IGNORECASE]: on two
    platforms that agree there, whatever the build and the debug runtime,
    [main] ends the same way (returned, or stopped at the same line), has
    written and reported the same, and leaves the same sequence of
    entries. *)
Theorem main_locale_independent b :
  main (T := T2) b initial = outcome_map retype (main (T := T1) b initial).
Proof. apply (main_simulates b initial). Qed.

End independence.

(** ** Witness *)

(** A platform that orders as [latin1_collator] under the invariant locale
    and puts the first string last under every other locale. *)
Lemma main_locale_independent_witness :
  main (T := λ loc fl a b,
               match loc with
               | [] => latin1_collator [] fl a b
               | _ :: _ => CSTR_GREATER_THAN
               end) (R := stops) Debug initial =
  outcome_map retype (main (T := latin1_collator) (R := stops) Debug initial).
Proof. apply main_locale_independent. by intros a b. Defined.
